(** * Schema-Registry: the C++ client of examples/latency_tick_store_integration.cpp

    A shallow embedding of [SchemaRegistryClient] (the TTL cache in front of
    the registry, the expiry sweep of the monitoring thread, the translation
    of a schema document into Arrow fields and the statistics snapshot),
    followed by the properties the specification states about it.

    External collaborators are modelled at their interface:
    - nlohmann::json values are the inductive [json]; an object is its
      member list in key order (the library keeps objects in a [std::map]);
      [json::parse] is a parameter of [fetch_schema];
    - libcurl is the record [libcurl]: whether a handle can be obtained and
      what a transfer answers to a request;
    - exceptions are the [Throw] results of [result];
    - [std::chrono::steady_clock] readings are integers counting clock
      ticks (nanoseconds), a reading being non-negative and below 2^63, so
      that differences of readings do not overflow. *)

From Stdlib Require Import ZArith String Ascii.
From Stdlib Require Import Floats.SpecFloat.
From Stdlib Require Import DecimalString.
From Stdlib Require Import Sorted.
From stdpp Require Import gmap strings list fin_maps.

Set Warnings "-register-all".

Local Open Scope Z_scope.

(** ** C++ values *)

(** [std::string::empty]. *)
Definition empty (s : string) : bool :=
  match s with
  | EmptyString => true
  | String _ _ => false
  end.

(** [std::to_string] on a [long]. *)
Definition to_string (n : Z) : string :=
  NilZero.string_of_int (Z.to_int n).

(** The value of an [int] after an arithmetic step: two's complement on 32
    bits ([std::atomic<int>] increments wrap). *)
Definition int_wrap (z : Z) : Z :=
  (z + 2147483648) mod 4294967296 - 2147483648.

(** [x++] on a [std::atomic<int>]. *)
Definition atomic_incr (x : Z) : Z := int_wrap (x + 1).

(** [(double) n] for an [int] [n], and division of doubles (IEEE 754
    binary64). *)
Definition double_of_int (n : Z) : spec_float :=
  binary_normalize 53 1024 n 0 false.

Definition double_div (x y : spec_float) : spec_float :=
  SFdiv 53 1024 x y.

(** ** nlohmann::json *)

Inductive json : Type :=
| JNull
| JObject (members : list (string * json))
| JArray (elements : list json)
| JString (s : string)
| JBoolean (b : bool)
| JNumberInteger (n : Z)
| JNumberUnsigned (n : Z)
| JNumberFloat (f : spec_float).

Inductive exn : Type :=
| runtime_error (what : string)
| parse_error
| type_error (id : Z)
| invalid_iterator (id : Z)
| assertion_failure.

Inductive result (A : Type) : Type :=
| Ok (a : A)
| Throw (e : exn).

Arguments Ok {A} a.
Arguments Throw {A} e.

#[global] Instance result_ret : MRet result := fun A a => Ok a.

#[global] Instance result_bind : MBind result := fun A B k r =>
  match r with
  | Ok a => k a
  | Throw e => Throw e
  end.

Definition is_Ok {A} (r : result A) : bool :=
  match r with
  | Ok _ => true
  | Throw _ => false
  end.

Module Json.

(** [std::map::find] on the members of an object. *)
Fixpoint find (key : string) (members : list (string * json)) : option json :=
  match members with
  | [] => None
  | (k, v) :: rest => if String.eqb key k then Some v else find key rest
  end.

(** [std::map::emplace]: the member is added at its place in key order,
    and nothing changes when the key is already there. *)
Fixpoint emplace (key : string) (v : json) (members : list (string * json))
  : list (string * json) :=
  match members with
  | [] => [(key, v)]
  | (k, v') :: rest =>
      match String.compare key k with
      | Lt => (key, v) :: members
      | Eq => members
      | Gt => (k, v') :: emplace key v rest
      end
  end.

(** [j.contains(key)]: false on everything that is not an object. *)
Definition contains (j : json) (key : string) : bool :=
  match j with
  | JObject members =>
      match find key members with
      | Some _ => true
      | None => false
      end
  | _ => false
  end.

(** [j[key]] on a const value: type_error 305 when [j] is not an object;
    on a missing key the library asserts (undefined behaviour when the
    assertion is compiled out). *)
Definition at_const (j : json) (key : string) : result json :=
  match j with
  | JObject members =>
      match find key members with
      | Some v => Ok v
      | None => Throw assertion_failure
      end
  | _ => Throw (type_error 305)
  end.

(** [j[key]] on a non-const value: null first becomes an empty object,
    and a missing key is added with the value null. Gives the member and
    the value [j] has afterwards. *)
Definition at_mut (j : json) (key : string) : result (json * json) :=
  match j with
  | JNull => Ok (JNull, JObject [(key, JNull)])
  | JObject members =>
      match find key members with
      | Some v => Ok (v, j)
      | None => Ok (JNull, JObject (emplace key JNull members))
      end
  | _ => Throw (type_error 305)
  end.

(** The conversion to [std::string]: type_error 302 unless [j] is a
    string. *)
Definition get_string (j : json) : result string :=
  match j with
  | JString s => Ok s
  | _ => Throw (type_error 302)
  end.

(** [j.value(key, default_value)] with a string default: type_error 306
    when [j] is not an object; a member that is there is converted. *)
Definition value (j : json) (key : string) (default_value : string)
  : result string :=
  match j with
  | JObject members =>
      match find key members with
      | Some v => get_string v
      | None => Ok default_value
      end
  | _ => Throw (type_error 306)
  end.

(** What [begin()] .. [end()] runs over, each position with the key
    [it.key()] has there, if any: the members of an object in key order,
    the elements of an array, nothing for null, and the value itself for
    the other kinds. *)
Definition items (j : json) : list (option string * json) :=
  match j with
  | JNull => []
  | JObject members => map (fun kv => (Some (fst kv), snd kv)) members
  | JArray elements => map (fun v => (None, v)) elements
  | _ => [(None, j)]
  end.

(** [it.key()]: invalid_iterator 207 when the iterator is not into an
    object. *)
Definition key (it : option string * json) : result string :=
  match fst it with
  | Some k => Ok k
  | None => Throw (invalid_iterator 207)
  end.

(** [it.value()], also what a range-for binds. *)
Definition it_value (it : option string * json) : json := snd it.

End Json.

(** ** libcurl *)

(** The options [fetch_schema] sets on the handle before the transfer. *)
Record curl_request : Type := {
  CURLOPT_URL : string;
  CURLOPT_HTTPHEADER : list string;
  CURLOPT_TIMEOUT : Z
}.

(** What a transfer leaves behind: the code [curl_easy_perform] returns,
    the status [CURLINFO_RESPONSE_CODE] reports and the bytes handed to
    [WriteCallback]. *)
Record curl_transfer : Type := {
  res : Z;
  http_code : Z;
  response : string
}.

Record libcurl : Type := {
  curl_easy_init : bool;
  curl_easy_perform : curl_request -> curl_transfer;
  curl_easy_strerror : Z -> string
}.

Definition CURLE_OK : Z := 0.

(** ** SchemaRegistryClient *)

(** [std::chrono::steady_clock::time_point], in clock ticks. *)
Abbreviation time_point := Z (only parsing).

Definition ticks_per_second : Z := 1000000000.

(** [std::chrono::seconds] compared with a difference of time points. *)
Definition seconds (s : Z) : Z := s * ticks_per_second.

(** [cache_ttl_{600}]: the member is initialised here and never assigned. *)
Definition cache_ttl_ : Z := seconds 600.

(** The members of the class the operations below read or write. (The
    thread handle and its [running_] flag belong to the scheduling of the
    sweep, not to what one sweep does.) *)
Record SchemaRegistryClient : Type := {
  base_url_ : string;
  auth_token_ : string;
  schema_cache_ : gmap string json;
  cache_timestamps_ : gmap string Z;
  cache_hits_ : Z;
  cache_misses_ : Z;
  schema_fetches_ : Z
}.

(** The constructor. *)
Definition new_client (base_url auth_token : string) : SchemaRegistryClient :=
  {| base_url_ := base_url;
     auth_token_ := auth_token;
     schema_cache_ := ∅;
     cache_timestamps_ := ∅;
     cache_hits_ := 0;
     cache_misses_ := 0;
     schema_fetches_ := 0 |}.

Definition set_schema_cache_ (m : gmap string json) (c : SchemaRegistryClient) :=
  {| base_url_ := base_url_ c;
     auth_token_ := auth_token_ c;
     schema_cache_ := m;
     cache_timestamps_ := cache_timestamps_ c;
     cache_hits_ := cache_hits_ c;
     cache_misses_ := cache_misses_ c;
     schema_fetches_ := schema_fetches_ c |}.

Definition set_cache_timestamps_ (m : gmap string Z) (c : SchemaRegistryClient) :=
  {| base_url_ := base_url_ c;
     auth_token_ := auth_token_ c;
     schema_cache_ := schema_cache_ c;
     cache_timestamps_ := m;
     cache_hits_ := cache_hits_ c;
     cache_misses_ := cache_misses_ c;
     schema_fetches_ := schema_fetches_ c |}.

Definition incr_cache_hits_ (c : SchemaRegistryClient) :=
  {| base_url_ := base_url_ c;
     auth_token_ := auth_token_ c;
     schema_cache_ := schema_cache_ c;
     cache_timestamps_ := cache_timestamps_ c;
     cache_hits_ := atomic_incr (cache_hits_ c);
     cache_misses_ := cache_misses_ c;
     schema_fetches_ := schema_fetches_ c |}.

Definition incr_cache_misses_ (c : SchemaRegistryClient) :=
  {| base_url_ := base_url_ c;
     auth_token_ := auth_token_ c;
     schema_cache_ := schema_cache_ c;
     cache_timestamps_ := cache_timestamps_ c;
     cache_hits_ := cache_hits_ c;
     cache_misses_ := atomic_incr (cache_misses_ c);
     schema_fetches_ := schema_fetches_ c |}.

Definition incr_schema_fetches_ (c : SchemaRegistryClient) :=
  {| base_url_ := base_url_ c;
     auth_token_ := auth_token_ c;
     schema_cache_ := schema_cache_ c;
     cache_timestamps_ := cache_timestamps_ c;
     cache_hits_ := cache_hits_ c;
     cache_misses_ := cache_misses_ c;
     schema_fetches_ := atomic_incr (schema_fetches_ c) |}.

(** [m[key]] on a [std::unordered_map] of time points: a missing key is
    added with the default time point, the clock's epoch. *)
Definition timestamps_at (m : gmap string Z) (key : string)
  : Z * gmap string Z :=
  match m !! key with
  | Some t => (t, m)
  | None => (0, <[key := 0]> m)
  end.

(** What a call of [fetch_schema] leaves: its result, the client
    afterwards and the transfers it asked libcurl for. *)
Record outcome : Type := {
  returned : result json;
  client : SchemaRegistryClient;
  transfers : list curl_request
}.

(** The key [fetch_schema] caches under. *)
Definition cache_key (schema_id version : string) : string :=
  schema_id +:+ (if empty version then "" else ":" +:+ version).

(** Lines 81-98: the URL, the timeout and the header of the request. *)
Definition registry_request (c : SchemaRegistryClient)
    (schema_id version : string) : curl_request :=
  let url := base_url_ c +:+ "/schema/" +:+ schema_id in
  let url := if negb (empty version) then url +:+ "?version=" +:+ version
             else url in
  let headers := if negb (empty (auth_token_ c))
                 then ["Authorization: Bearer " +:+ auth_token_ c]
                 else [] in
  {| CURLOPT_URL := url;
     CURLOPT_HTTPHEADER := headers;
     CURLOPT_TIMEOUT := 30 |}.

Section FetchSchema.

(** [json::parse]: the document, or the exception it throws. *)
Variable json_parse : string -> result json.
Variable curl : libcurl.

(** Lines 72-122: the path taken when the cache does not answer. *)
Definition fetch_from_registry (now : time_point) (c : SchemaRegistryClient)
    (schema_id version : string) : outcome :=
  let key := cache_key schema_id version in
  let counted := incr_schema_fetches_ (incr_cache_misses_ c) in
  if negb (curl_easy_init curl) then
    {| returned := Throw (runtime_error "Failed to initialize CURL");
       client := counted; transfers := [] |}
  else
    let request := registry_request c schema_id version in
    let transfer := curl_easy_perform curl request in
    if negb (res transfer =? CURLE_OK) then
      {| returned := Throw (runtime_error
                       ("CURL request failed: "
                        +:+ curl_easy_strerror curl (res transfer)));
         client := counted; transfers := [request] |}
    else if negb (http_code transfer =? 200) then
      {| returned := Throw (runtime_error
                       ("HTTP request failed with code: "
                        +:+ to_string (http_code transfer)));
         client := counted; transfers := [request] |}
    else
      match response_json ← json_parse (response transfer);
            Json.at_mut response_json "schema" with
      | Throw e => {| returned := Throw e; client := counted;
                      transfers := [request] |}
      | Ok (schema_data, _) =>
          let stored := set_schema_cache_
                          (<[key := schema_data]> (schema_cache_ counted)) counted in
          let stored := set_cache_timestamps_
                          (<[key := now]> (cache_timestamps_ stored)) stored in
          {| returned := Ok schema_data; client := stored;
             transfers := [request] |}
      end.

(** Lines 58-123. *)
Definition fetch_schema (now : time_point) (c : SchemaRegistryClient)
    (schema_id version : string) : outcome :=
  let key := cache_key schema_id version in
  match schema_cache_ c !! key with
  | Some cached =>
      let '(cache_time, timestamps) := timestamps_at (cache_timestamps_ c) key in
      let c := set_cache_timestamps_ timestamps c in
      if now - cache_time <? cache_ttl_ then
        {| returned := Ok cached; client := incr_cache_hits_ c;
           transfers := [] |}
      else fetch_from_registry now c schema_id version
  | None => fetch_from_registry now c schema_id version
  end.

End FetchSchema.

(** One pass of the loop of [monitor_schema_updates] once its sleep is
    over (lines 216-229). *)
Definition expired_keys (now : time_point) (timestamps : gmap string Z)
  : list string :=
  (map_to_list (filter (λ pair, now - pair.2 > cache_ttl_) timestamps)).*1.

Definition erase_key (c : SchemaRegistryClient) (key : string)
  : SchemaRegistryClient :=
  set_cache_timestamps_ (delete key (cache_timestamps_ c))
    (set_schema_cache_ (delete key (schema_cache_ c)) c).

Definition sweep_expired (now : time_point) (c : SchemaRegistryClient)
  : SchemaRegistryClient :=
  foldl erase_key c (expired_keys now (cache_timestamps_ c)).

(** ** Arrow *)

Module TimeUnit.
Inductive type : Type := SECOND | MILLI | MICRO | NANO.
End TimeUnit.

(** The [arrow::DataType]s the translation can produce. *)
Inductive DataType : Type :=
| int32
| int64
| float32
| float64
| utf8
| timestamp (unit : TimeUnit.type).

(** [arrow::field(name, type)]. *)
Record Field : Type := field {
  name : string;
  type : DataType
}.

(** [arrow::Schema]: its fields in order. *)
Abbreviation Schema := (list Field) (only parsing).

(** The loops of [create_arrow_schema] push one field per round onto
    [fields]; an exception in a round ends the call. *)
Fixpoint for_each {A B} (body : A -> result B) (l : list A) : result (list B) :=
  match l with
  | [] => Ok []
  | x :: rest =>
      y ← body x;
      ys ← for_each body rest;
      Ok (y :: ys)
  end.

(** Lines 139-161: the type chosen for a type name of the [arrow] field
    list. *)
Definition native_type (field_type : json) (type_name : string)
  : result DataType :=
  if String.eqb type_name "int32" then Ok int32
  else if String.eqb type_name "int64" then Ok int64
  else if String.eqb type_name "float32" then Ok float32
  else if String.eqb type_name "float64" then Ok float64
  else if String.eqb type_name "utf8" then Ok utf8
  else if String.eqb type_name "timestamp" then
    unit ← Json.value field_type "unit" "us";
    if String.eqb unit "us" then Ok (timestamp TimeUnit.MICRO)
    else if String.eqb unit "ns" then Ok (timestamp TimeUnit.NANO)
    else Ok (timestamp TimeUnit.SECOND)
  else Ok utf8.

(** Lines 133-163: one round of the loop over [arrow.fields]. *)
Definition native_field (it : option string * json) : result Field :=
  let field := Json.it_value it in
  field_name ← Json.at_const field "name" ≫= Json.get_string;
  field_type ← Json.at_const field "type";
  '(member, field_type) ← Json.at_mut field_type "name";
  type_name ← Json.get_string member;
  arrow_type ← native_type field_type type_name;
  Ok {| name := field_name; type := arrow_type |}.

(** Lines 175-183: the type chosen for a JSON-schema type. *)
Definition property_type (json_type : string) : DataType :=
  if String.eqb json_type "integer" then int64
  else if String.eqb json_type "number" then float64
  else if String.eqb json_type "string" then utf8
  else utf8.

(** Lines 169-185: one round of the loop over [properties]. *)
Definition property_field (it : option string * json) : result Field :=
  field_name ← Json.key it;
  let field_schema := Json.it_value it in
  '(member, _) ← Json.at_mut field_schema "type";
  json_type ← Json.get_string member;
  Ok {| name := field_name; type := property_type json_type |}.

(** The test of line 130; [&&] evaluates its right operand only when the
    left one holds. *)
Definition has_arrow_fields (schema_json : json) : result bool :=
  if Json.contains schema_json "arrow" then
    arrow ← Json.at_const schema_json "arrow";
    Ok (Json.contains arrow "fields")
  else Ok false.

(** Lines 126-190. *)
Definition create_arrow_schema (schema_json : json) : result (list Field) :=
  native ← has_arrow_fields schema_json;
  if native : bool then
    arrow_fields ← Json.at_const schema_json "arrow"
                   ≫= (λ arrow, Json.at_const arrow "fields");
    for_each native_field (Json.items arrow_fields)
  else
    properties ← Json.at_const schema_json "properties";
    for_each property_field (Json.items properties).

(** ** Statistics *)

(** The object an initializer list of key/value pairs builds. *)
Definition json_object (init : list (string * json)) : json :=
  JObject (foldl (λ members kv, Json.emplace kv.1 kv.2 members) [] init).

(** Lines 239-247. The two [int]s are added as [int]s before the sum is
    converted (a sum out of range, undefined in C++, is taken in two's
    complement). *)
Definition get_stats (c : SchemaRegistryClient) : json :=
  json_object
    [ ("cache_hits", JNumberInteger (cache_hits_ c));
      ("cache_misses", JNumberInteger (cache_misses_ c));
      ("schema_fetches", JNumberInteger (schema_fetches_ c));
      ("cache_size", JNumberUnsigned (Z.of_nat (size (schema_cache_ c))));
      ("cache_hit_ratio",
       JNumberFloat
         (double_div (double_of_int (cache_hits_ c))
            (double_of_int (int_wrap (cache_hits_ c + cache_misses_ c))))) ].

(** [stats[key]] as [main] reads a statistic. *)
Definition stat (stats : json) (key : string) : result json :=
  '(member, _) ← Json.at_mut stats key;
  Ok member.

(** ** What the properties speak of *)

(** Every cached document has a time stamp: [fetch_schema] writes both
    maps together and the sweep erases from both. *)
Definition stamped (c : SchemaRegistryClient) : Prop :=
  ∀ key, is_Some (schema_cache_ c !! key) → is_Some (cache_timestamps_ c !! key).

(** An entry of [arrow.fields] as the registry describes it: an object
    with a string [name] and a [type] object with a string [name]; [f] is
    the field the translation makes of it. *)
Definition native_entry (entry : json) (f : Field) : Prop :=
  ∃ entry_members type_members type_name,
    entry = JObject entry_members
    ∧ Json.find "name" entry_members = Some (JString (name f))
    ∧ Json.find "type" entry_members = Some (JObject type_members)
    ∧ Json.find "name" type_members = Some (JString type_name)
    ∧ native_type (JObject type_members) type_name = Ok (type f).

(** A member of [properties] as the registry describes it: a key and an
    object with a string [type]. *)
Definition property_entry (member : string * json) (f : Field) : Prop :=
  ∃ schema_members json_type,
    member.2 = JObject schema_members
    ∧ Json.find "type" schema_members = Some (JString json_type)
    ∧ f = {| name := member.1; type := property_type json_type |}.

(** The entries the two loops get through: an entry of [arrow.fields]
    must be an object with a string [name] and a [type] object with a
    string [name] and, for a timestamp, a [unit] that is absent or a
    string; a member of [properties] must be an object with a string
    [type]. *)
Definition well_formed_native (entry : json) : Prop :=
  ∃ entry_members field_name type_members type_name,
    entry = JObject entry_members
    ∧ Json.find "name" entry_members = Some (JString field_name)
    ∧ Json.find "type" entry_members = Some (JObject type_members)
    ∧ Json.find "name" type_members = Some (JString type_name)
    ∧ (type_name = "timestamp" →
       ∀ unit, Json.find "unit" type_members = Some unit →
               ∃ s, unit = JString s).

Definition well_formed_property (field_schema : json) : Prop :=
  ∃ schema_members json_type,
    field_schema = JObject schema_members
    ∧ Json.find "type" schema_members = Some (JString json_type).

(** An entry of [arrow.fields] that holds the two members lines 133 and
    134 read with the const [operator[]]: an object has both a [name] and
    a [type] member (of whatever kind). *)
Definition has_name_and_type (entry : json) : Prop :=
  ∀ entry_members,
    entry = JObject entry_members →
    is_Some (Json.find "name" entry_members)
    ∧ is_Some (Json.find "type" entry_members).

(** ** Examples to run the operations on *)

Module Examples.

Definition quote : string := String "034" "".

(** The body [{"schema":{"title":"ticks"}}]. *)
Definition ticks_body : string :=
  "{" +:+ quote +:+ "schema" +:+ quote +:+ ":{" +:+ quote +:+ "title"
  +:+ quote +:+ ":" +:+ quote +:+ "ticks" +:+ quote +:+ "}}".

Definition ticks_document : json := JObject [("title", JString "ticks")].

(** [json::parse] on the bodies of the examples: two documents, and a
    parse error for every other text here. *)
Definition parse (body : string) : result json :=
  if String.eqb body ticks_body then Ok (JObject [("schema", ticks_document)])
  else if String.eqb body "{}" then Ok (JObject [])
  else Throw parse_error.

(** A registry that answers every request with status 200 and [body]. *)
Definition registry (body : string) : libcurl :=
  {| curl_easy_init := true;
     curl_easy_perform := λ _, {| res := CURLE_OK; http_code := 200;
                                  response := body |};
     curl_easy_strerror := λ _, "" |}.

(** A registry that answers every request with status [code]. *)
Definition registry_status (code : Z) : libcurl :=
  {| curl_easy_init := true;
     curl_easy_perform := λ _, {| res := CURLE_OK; http_code := code;
                                  response := "" |};
     curl_easy_strerror := λ _, "" |}.

Definition fresh_client : SchemaRegistryClient :=
  new_client "http://localhost:8000" "".

(** The client after [fetch_schema("ticks_v1")] at time 0. *)
Definition warm_client : SchemaRegistryClient :=
  client (fetch_schema parse (registry ticks_body) 0 fresh_client "ticks_v1" "").

End Examples.

Module TranslationExamples.

(** [{name:"ts", type:{name:"timestamp", unit:"ns"}}]. *)
Definition ts_type : list (string * json) :=
  [("name", JString "timestamp"); ("unit", JString "ns")].
Definition ts_entry : list (string * json) :=
  [("name", JString "ts"); ("type", JObject ts_type)].

(** [{name:"px", type:{name:"float64"}}]. *)
Definition px_type : list (string * json) := [("name", JString "float64")].
Definition px_entry : list (string * json) :=
  [("name", JString "px"); ("type", JObject px_type)].

(** [{"qty":{"type":"integer"}, "sym":{"type":"string"}}]. *)
Definition properties : list (string * json) :=
  [("qty", JObject [("type", JString "integer")]);
   ("sym", JObject [("type", JString "string")])].

(** A document with both sources, and one with the properties only. *)
Definition both : list (string * json) :=
  [("arrow", JObject [("fields", JArray [JObject ts_entry; JObject px_entry])]);
   ("properties", JObject properties)].
Definition generic : list (string * json) :=
  [("properties", JObject properties)].

End TranslationExamples.

(** ** The rest of the client: the write callback and the monitoring thread *)

(** The value of a [size_t] after an arithmetic step (64 bits). *)
Definition size_t_wrap (z : Z) : Z := z mod 18446744073709551616.

(** Lines 53-56. [contents] is the buffer libcurl hands over, which holds
    at least [size * nmemb] bytes; the call gives the string [userp]
    points to afterwards and the count it returns. *)
Definition WriteCallback (contents : string) (size nmemb : Z) (userp : string)
  : string * Z :=
  (userp +:+ substring 0 (Z.to_nat (size_t_wrap (size * nmemb))) contents,
   size_t_wrap (size * nmemb)).

(** The bytes of one transfer reach the callback in chunks, each with
    [size] 1 and its length as [nmemb]; [response] starts empty (line 86). *)
Definition write_chunks (chunks : list string) (response : string)
  : string * list Z :=
  foldl (λ acc chunk,
           let '(userp, written) :=
             WriteCallback chunk 1 (Z.of_nat (String.length chunk)) acc.1 in
           (userp, acc.2 ++ [written]))
        (response, []) chunks.

(** The members the thread is run with: the flag [running_] and whether
    [update_thread_] is joinable. *)
Record monitoring : Type := {
  running_ : bool;
  update_thread_ : bool
}.

(** After the constructor: no thread. *)
Definition not_monitoring : monitoring :=
  {| running_ := false; update_thread_ := false |}.

(** Lines 193-200. Assigning a thread to a [std::thread] that is joinable
    calls [std::terminate]: [None]. *)
Definition start_monitoring (m : monitoring) : option monitoring :=
  if running_ m then Some m
  else if update_thread_ m then None
  else Some {| running_ := true; update_thread_ := true |}.

(** Lines 202-207. The thread leaves its loop once it reads the flag, so
    the join returns. *)
Definition stop_monitoring (m : monitoring) : monitoring :=
  let m := {| running_ := false; update_thread_ := update_thread_ m |} in
  if update_thread_ m then {| running_ := running_ m; update_thread_ := false |}
  else m.

(** Lines 210-235: the loop of the thread, one round for each clock
    reading [now] it takes after a sleep while [running_] holds. Nothing
    in a round throws, so the handler of line 231 is never entered. *)
Definition monitor_schema_updates (readings : list Z) (c : SchemaRegistryClient)
  : SchemaRegistryClient :=
  foldl (λ c now, sweep_expired now c) c readings.

(** A call on the client from outside: a lookup, or a round of the
    monitoring thread. *)
Inductive client_call : Type :=
| call_fetch_schema (json_parse : string → result json) (curl : libcurl)
    (now : Z) (schema_id version : string)
| call_sweep (now : Z).

Definition run_call (c : SchemaRegistryClient) (call : client_call)
  : SchemaRegistryClient :=
  match call with
  | call_fetch_schema json_parse curl now schema_id version =>
      client (fetch_schema json_parse curl now c schema_id version)
  | call_sweep now => sweep_expired now c
  end.

(** The client after a sequence of calls. *)
Definition run_calls (calls : list client_call) (c : SchemaRegistryClient)
  : SchemaRegistryClient :=
  foldl run_call c calls.

(** ** LatencyTickStore *)

(** The value of an [int64_t] after an arithmetic step. *)
Definition int64_wrap (z : Z) : Z :=
  (z + 9223372036854775808) mod 18446744073709551616 - 9223372036854775808.

(** [arrow::Result<T>]: a value, or the status of the failure. *)
Inductive arrow_Result (T : Type) : Type :=
| arrow_ok (value : T)
| arrow_error (status : string).

Arguments arrow_ok {T} value.
Arguments arrow_error {T} status.

(** What the store reads of an [arrow::Table]. *)
Record Table : Type := {
  table_schema : list Field;
  num_rows : Z
}.

Record LatencyTickStore : Type := {
  schema_client_ : SchemaRegistryClient;
  arrow_schemas_ : gmap string (list Field);
  data_directory_ : string;
  processed_ticks_ : Z;
  validation_errors_ : Z;
  start_time_ : Z
}.

(** The constructor, at the clock reading [now]. *)
Definition new_store (now : Z) (registry_url data_dir : string) : LatencyTickStore :=
  {| schema_client_ := new_client registry_url "";
     arrow_schemas_ := ∅;
     data_directory_ := data_dir;
     processed_ticks_ := 0;
     validation_errors_ := 0;
     start_time_ := now |}.

Definition set_schema_client_ (c : SchemaRegistryClient) (s : LatencyTickStore) :=
  {| schema_client_ := c;
     arrow_schemas_ := arrow_schemas_ s;
     data_directory_ := data_directory_ s;
     processed_ticks_ := processed_ticks_ s;
     validation_errors_ := validation_errors_ s;
     start_time_ := start_time_ s |}.

Definition set_arrow_schemas_ (m : gmap string (list Field)) (s : LatencyTickStore) :=
  {| schema_client_ := schema_client_ s;
     arrow_schemas_ := m;
     data_directory_ := data_directory_ s;
     processed_ticks_ := processed_ticks_ s;
     validation_errors_ := validation_errors_ s;
     start_time_ := start_time_ s |}.

Definition set_processed_ticks_ (n : Z) (s : LatencyTickStore) :=
  {| schema_client_ := schema_client_ s;
     arrow_schemas_ := arrow_schemas_ s;
     data_directory_ := data_directory_ s;
     processed_ticks_ := n;
     validation_errors_ := validation_errors_ s;
     start_time_ := start_time_ s |}.

(** What [catch (const std::exception&)] catches: the exceptions, not a
    failed assertion of the json library. *)
Definition catchable (e : exn) : bool :=
  match e with
  | assertion_failure => false
  | _ => true
  end.

Module TickStore.

Section Store.

Variable json_parse : string → result json.
Variable curl : libcurl.

(** The Arrow calls of [load_csv_with_arrow]. *)
Variables File Reader : Type.
Variable ReadableFile_Open : string → arrow_Result File.
Variable TableReader_Make : File → list Field → arrow_Result Reader.
Variable TableReader_Read : Reader → arrow_Result Table.

(** Lines 322-341; [ARROW_ASSIGN_OR_RAISE] returns the status of a
    failure at once. *)
Definition load_csv_with_arrow (file_path : string) (schema : list Field)
  : arrow_Result Table :=
  match ReadableFile_Open file_path with
  | arrow_error status => arrow_error status
  | arrow_ok input_file =>
      match TableReader_Make input_file schema with
      | arrow_error status => arrow_error status
      | arrow_ok reader => TableReader_Read reader
      end
  end.

(** Lines 343-368, without what it prints. *)
Definition process_tick_data (table : Table) (schema_id : string)
    (s : LatencyTickStore) : LatencyTickStore :=
  set_processed_ticks_ (int64_wrap (processed_ticks_ s + num_rows table)) s.

(** Lines 284-319, without what it prints: what it returns, or the
    failure that ends the program, and the store afterwards. Line 292
    reads [schema_json["title"]] from the local, non-const document. *)
Definition load_tick_data (now : Z) (s : LatencyTickStore)
    (file_path schema_id version : string) : result bool * LatencyTickStore :=
  let fetched := fetch_schema json_parse curl now (schema_client_ s)
                   schema_id version in
  let s := set_schema_client_ (client fetched) s in
  let attempt : result (bool * LatencyTickStore) :=
    schema_json ← returned fetched;
    '(_, schema_json) ← Json.at_mut schema_json "title";
    arrow_schema ← create_arrow_schema schema_json;
    let s := set_arrow_schemas_ (<[schema_id := arrow_schema]> (arrow_schemas_ s)) s in
    match load_csv_with_arrow file_path arrow_schema with
    | arrow_error _ => Ok (false, s)
    | arrow_ok table => Ok (true, process_tick_data table schema_id s)
    end in
  match attempt with
  | Ok (loaded, s') => (Ok loaded, s')
  | Throw e => if catchable e then (Ok false, s) else (Throw e, s)
  end.

End Store.

(** Lines 372-386, at the clock reading [now]. [duration_cast] and the
    division of [int64_t]s truncate. *)
Definition get_stats (now : Z) (s : LatencyTickStore) : json :=
  let runtime := Z.quot (now - start_time_ s) ticks_per_second in
  let schema_stats := get_stats (schema_client_ s) in
  json_object
    [ ("processed_ticks", JNumberInteger (processed_ticks_ s));
      ("validation_errors", JNumberInteger (validation_errors_ s));
      ("runtime_seconds", JNumberInteger runtime);
      ("ticks_per_second",
       JNumberInteger (if runtime >? 0 then Z.quot (processed_ticks_ s) runtime
                       else 0));
      ("schema_client", schema_stats);
      ("arrow_schemas_cached",
       JNumberUnsigned (Z.of_nat (size (arrow_schemas_ s)))) ].

End TickStore.

(** Both maps of the cache hold the same keys. *)
Definition paired (c : SchemaRegistryClient) : Prop :=
  ∀ key, is_Some (schema_cache_ c !! key) ↔ is_Some (cache_timestamps_ c !! key).

(** The calls on the thread from outside, and the state after a
    sequence of them ([None] once [std::terminate] was called). *)
Inductive monitoring_call : Type :=
| call_start_monitoring
| call_stop_monitoring.

Definition run_monitoring (calls : list monitoring_call) (m : monitoring)
  : option monitoring :=
  foldl (λ state call,
           match state, call with
           | Some m, call_start_monitoring => start_monitoring m
           | Some m, call_stop_monitoring => Some (stop_monitoring m)
           | None, _ => None
           end)
        (Some m) calls.

(** How many of the calls are lookups. *)
Fixpoint lookups (calls : list client_call) : Z :=
  match calls with
  | [] => 0
  | call_fetch_schema _ _ _ _ _ :: calls => 1 + lookups calls
  | call_sweep _ :: calls => lookups calls
  end.

Module StoreExamples.

Definition quoted (s : string) : string :=
  Examples.quote +:+ s +:+ Examples.quote.

(** The body
    [{"schema":{"properties":{"qty":{"type":"integer"},"sym":{"type":"string"}}}}]. *)
Definition columns_body : string :=
  "{" +:+ quoted "schema" +:+ ":{" +:+ quoted "properties" +:+ ":{"
  +:+ quoted "qty" +:+ ":{" +:+ quoted "type" +:+ ":" +:+ quoted "integer"
  +:+ "}," +:+ quoted "sym" +:+ ":{" +:+ quoted "type" +:+ ":"
  +:+ quoted "string" +:+ "}}}}".

(** [json::parse] on the bodies of these examples. *)
Definition parse (body : string) : result json :=
  if String.eqb body columns_body
  then Ok (JObject [("schema", JObject TranslationExamples.generic)])
  else if String.eqb body "{}" then Ok (JObject [])
  else Throw parse_error.

Definition columns : list Field :=
  [ {| name := "qty"; type := int64 |}; {| name := "sym"; type := utf8 |} ].

(** Arrow calls that read a table of three rows from every file, and
    Arrow calls that find no file. *)
Definition open_any (file_path : string) : arrow_Result string :=
  arrow_ok file_path.
Definition open_none (file_path : string) : arrow_Result string :=
  arrow_error "IOError: Failed to open local file".
Definition make_reader (input_file : string) (schema : list Field)
  : arrow_Result (list Field) :=
  arrow_ok schema.
Definition read_three_rows (reader : list Field) : arrow_Result Table :=
  arrow_ok {| table_schema := reader; num_rows := 3 |}.

Definition store : LatencyTickStore :=
  new_store 0 "http://localhost:8000" "./data".

End StoreExamples.

(** * Properties *)

(** ** Strings and keys *)

Lemma append_empty_r (s : string) : s +:+ "" = s.
Proof.
  induction s as [|a s IH]; [reflexivity |].
  change (String a (s +:+ "") = String a s). by rewrite IH.
Qed.

Lemma append_eq_self (s t : string) : s +:+ t = s → t = "".
Proof.
  induction s as [|a s IH]; intros H; [exact H |].
  change (String a (s +:+ t) = String a s) in H.
  injection H as H. by apply IH.
Qed.

(** ** The cache *)

Lemma new_client_stamped base_url auth_token :
  stamped (new_client base_url auth_token).
Proof. intros key [d Hd]. simpl in Hd. by rewrite lookup_empty in Hd. Qed.

Lemma set_cache_timestamps_same c :
  set_cache_timestamps_ (cache_timestamps_ c) c = c.
Proof. by destruct c. Qed.

Lemma timestamps_at_Some (m : gmap string Z) key t :
  m !! key = Some t → timestamps_at m key = (t, m).
Proof. intros H. unfold timestamps_at. by rewrite H. Qed.

Section FetchSchemaFacts.

Variable json_parse : string -> result json.
Variable curl : libcurl.

Lemma fetch_schema_absent now c schema_id version :
  schema_cache_ c !! cache_key schema_id version = None →
  fetch_schema json_parse curl now c schema_id version
  = fetch_from_registry json_parse curl now c schema_id version.
Proof. intros H. unfold fetch_schema. by rewrite H. Qed.

Lemma fetch_schema_fresh now c schema_id version document fetched_at :
  schema_cache_ c !! cache_key schema_id version = Some document →
  cache_timestamps_ c !! cache_key schema_id version = Some fetched_at →
  now - fetched_at < cache_ttl_ →
  fetch_schema json_parse curl now c schema_id version
  = {| returned := Ok document; client := incr_cache_hits_ c;
       transfers := [] |}.
Proof.
  intros Hd Ht Hage. unfold fetch_schema.
  rewrite Hd, (timestamps_at_Some _ _ _ Ht), set_cache_timestamps_same.
  by rewrite (proj2 (Z.ltb_lt _ _) Hage).
Qed.

Lemma fetch_schema_stale now c schema_id version document fetched_at :
  schema_cache_ c !! cache_key schema_id version = Some document →
  cache_timestamps_ c !! cache_key schema_id version = Some fetched_at →
  cache_ttl_ ≤ now - fetched_at →
  fetch_schema json_parse curl now c schema_id version
  = fetch_from_registry json_parse curl now c schema_id version.
Proof.
  intros Hd Ht Hage. unfold fetch_schema.
  rewrite Hd, (timestamps_at_Some _ _ _ Ht), set_cache_timestamps_same.
  by rewrite (proj2 (Z.ltb_ge _ _) Hage).
Qed.

(** The counters after the path through the registry, whatever the
    transfer gives. *)
Lemma fetch_from_registry_counters now c schema_id version :
  let c' := client (fetch_from_registry json_parse curl now c schema_id version) in
  cache_hits_ c' = cache_hits_ c
  ∧ cache_misses_ c' = atomic_incr (cache_misses_ c)
  ∧ schema_fetches_ c' = atomic_incr (schema_fetches_ c).
Proof.
  unfold fetch_from_registry.
  repeat (case_match; simpl; try done).
Qed.

(** With a handle, exactly one transfer is asked for. *)
Lemma fetch_from_registry_transfers now c schema_id version :
  curl_easy_init curl = true →
  transfers (fetch_from_registry json_parse curl now c schema_id version)
  = [registry_request c schema_id version].
Proof.
  intros Hinit. unfold fetch_from_registry. rewrite Hinit. simpl.
  repeat (case_match; simpl; try done).
Qed.

(** A transfer that succeeds with a body whose [schema] member can be
    read: the member is stored under the key with [now] and returned. *)
Lemma fetch_from_registry_success now c schema_id version
    response_json schema_data response_json' :
  let transfer := curl_easy_perform curl (registry_request c schema_id version) in
  curl_easy_init curl = true →
  res transfer = CURLE_OK →
  http_code transfer = 200 →
  json_parse (response transfer) = Ok response_json →
  Json.at_mut response_json "schema" = Ok (schema_data, response_json') →
  let out := fetch_from_registry json_parse curl now c schema_id version in
  returned out = Ok schema_data
  ∧ schema_cache_ (client out)
    = <[cache_key schema_id version := schema_data]> (schema_cache_ c)
  ∧ cache_timestamps_ (client out)
    = <[cache_key schema_id version := now]> (cache_timestamps_ c).
Proof.
  intros transfer Hinit Hres Hcode Hparse Hschema. subst transfer.
  unfold fetch_from_registry. cbv zeta.
  rewrite Hinit, Hres, Hcode, Hparse. cbn. rewrite Hschema. done.
Qed.

End FetchSchemaFacts.

Section FetchSchemaCases.

Variable json_parse : string -> result json.
Variable curl : libcurl.

(** A call either answers from the cache, the entry being fresh, or goes
    to the registry, the entry being absent or not fresh. *)
Lemma fetch_schema_cases now c schema_id version :
  stamped c →
  let key := cache_key schema_id version in
  (∃ document fetched_at,
      schema_cache_ c !! key = Some document
      ∧ cache_timestamps_ c !! key = Some fetched_at
      ∧ now - fetched_at < cache_ttl_
      ∧ fetch_schema json_parse curl now c schema_id version
        = {| returned := Ok document; client := incr_cache_hits_ c;
             transfers := [] |})
  ∨ ((schema_cache_ c !! key = None
      ∨ ∃ document fetched_at,
          schema_cache_ c !! key = Some document
          ∧ cache_timestamps_ c !! key = Some fetched_at
          ∧ cache_ttl_ ≤ now - fetched_at)
     ∧ fetch_schema json_parse curl now c schema_id version
       = fetch_from_registry json_parse curl now c schema_id version).
Proof.
  intros Hst key.
  destruct (schema_cache_ c !! key) as [document|] eqn:Hd.
  - destruct (Hst key) as [fetched_at Ht]; [by rewrite Hd |].
    destruct (Z.lt_ge_cases (now - fetched_at) cache_ttl_) as [Hage|Hage].
    + left. exists document, fetched_at. repeat split; try done.
      by apply fetch_schema_fresh with fetched_at.
    + right. split; [right; by exists document, fetched_at |].
      by apply fetch_schema_stale with document fetched_at.
  - right. split; [by left |]. by apply fetch_schema_absent.
Qed.

(** A failure of the path through the registry comes from one of its
    steps, and happens before the maps are written. *)
Lemma fetch_from_registry_failure now c schema_id version e :
  let out := fetch_from_registry json_parse curl now c schema_id version in
  let transfer := curl_easy_perform curl (registry_request c schema_id version) in
  returned out = Throw e →
  client out = incr_schema_fetches_ (incr_cache_misses_ c)
  ∧ ((curl_easy_init curl = false
      ∧ e = runtime_error "Failed to initialize CURL")
     ∨ (res transfer ≠ CURLE_OK
        ∧ e = runtime_error ("CURL request failed: "
                             +:+ curl_easy_strerror curl (res transfer)))
     ∨ (http_code transfer ≠ 200
        ∧ e = runtime_error ("HTTP request failed with code: "
                             +:+ to_string (http_code transfer)))
     ∨ json_parse (response transfer) = Throw e
     ∨ ∃ response_json,
         json_parse (response transfer) = Ok response_json
         ∧ Json.at_mut response_json "schema" = Throw e).
Proof.
  intros out transfer. subst out transfer.
  unfold fetch_from_registry. cbv zeta.
  destruct (curl_easy_init curl); cbn [negb].
  2: { cbn. intros [= <-]. split; [done | by left]. }
  destruct (Z.eqb_spec
              (res (curl_easy_perform curl (registry_request c schema_id version)))
              CURLE_OK) as [Hres|Hres]; cbn [negb].
  2: { cbn. intros [= <-]. split; [done | right; by left]. }
  destruct (Z.eqb_spec
              (http_code (curl_easy_perform curl (registry_request c schema_id version)))
              200) as [Hcode|Hcode]; cbn [negb].
  2: { cbn. intros [= <-]. split; [done | right; right; by left]. }
  destruct (json_parse _) as [response_json|e'] eqn:Hparse; cbn.
  2: { intros [= <-]. split; [done | right; right; right; by left]. }
  destruct (Json.at_mut response_json "schema") as [[schema_data j']|e'] eqn:Hs;
    cbn; intros [= <-].
  split; [done |]. right; right; right; right. by exists response_json.
Qed.

Lemma fetch_schema_stamped now c schema_id version :
  stamped c →
  stamped (client (fetch_schema json_parse curl now c schema_id version)).
Proof.
  intros Hst.
  destruct (fetch_schema_cases now c schema_id version Hst)
    as [(d & t & _ & _ & _ & ->)|[_ ->]]; [exact Hst |].
  unfold fetch_from_registry. cbv zeta.
  repeat (case_match; try exact Hst).
  intros key. cbn.
  destruct (decide (cache_key schema_id version = key)) as [->|Hne].
  - rewrite !lookup_insert_eq. eauto.
  - rewrite !lookup_insert_ne by done. apply Hst.
Qed.

End FetchSchemaCases.

(** ** The sweep *)

Lemma foldl_erase_key_timestamps keys c key :
  cache_timestamps_ (foldl erase_key c keys) !! key
  = if decide (key ∈ keys) then None else cache_timestamps_ c !! key.
Proof.
  revert c. induction keys as [|k keys IH]; intros c; cbn [foldl].
  - rewrite decide_False; [done | apply not_elem_of_nil].
  - rewrite IH. cbn.
    destruct (decide (key ∈ keys)) as [Hin|Hin].
    + rewrite decide_True; [done | by right].
    + destruct (decide (k = key)) as [->|Hne].
      * rewrite lookup_delete_eq, decide_True; [done | by left].
      * rewrite lookup_delete_ne by done.
        rewrite decide_False; [done |]. by intros [->|?]%elem_of_cons.
Qed.

Lemma foldl_erase_key_cache keys c key :
  schema_cache_ (foldl erase_key c keys) !! key
  = if decide (key ∈ keys) then None else schema_cache_ c !! key.
Proof.
  revert c. induction keys as [|k keys IH]; intros c; cbn [foldl].
  - rewrite decide_False; [done | apply not_elem_of_nil].
  - rewrite IH. cbn.
    destruct (decide (key ∈ keys)) as [Hin|Hin].
    + rewrite decide_True; [done | by right].
    + destruct (decide (k = key)) as [->|Hne].
      * rewrite lookup_delete_eq, decide_True; [done | by left].
      * rewrite lookup_delete_ne by done.
        rewrite decide_False; [done |]. by intros [->|?]%elem_of_cons.
Qed.

Lemma foldl_erase_key_counters keys c :
  cache_hits_ (foldl erase_key c keys) = cache_hits_ c
  ∧ cache_misses_ (foldl erase_key c keys) = cache_misses_ c
  ∧ schema_fetches_ (foldl erase_key c keys) = schema_fetches_ c.
Proof.
  revert c. induction keys as [|k keys IH]; intros c; [done |].
  cbn [foldl]. destruct (IH (erase_key c k)) as (-> & -> & ->). done.
Qed.

Lemma elem_of_expired_keys now (timestamps : gmap string Z) key :
  key ∈ expired_keys now timestamps
  ↔ ∃ fetched_at, timestamps !! key = Some fetched_at
                  ∧ now - fetched_at > cache_ttl_.
Proof.
  unfold expired_keys. rewrite list_elem_of_fmap. split.
  - intros ([k t] & -> & Hin).
    apply elem_of_map_to_list, map_lookup_filter_Some in Hin as [Hk Hage].
    by exists t.
  - intros (t & Hk & Hage). exists (key, t). split; [done |].
    by apply elem_of_map_to_list, map_lookup_filter_Some.
Qed.

(** What a sweep leaves of the time stamps: the entries whose age does
    not exceed the TTL. *)
Lemma sweep_expired_timestamps now c key :
  cache_timestamps_ (sweep_expired now c) !! key
  = match cache_timestamps_ c !! key with
    | Some fetched_at =>
        if decide (now - fetched_at > cache_ttl_) then None else Some fetched_at
    | None => None
    end.
Proof.
  unfold sweep_expired. rewrite foldl_erase_key_timestamps.
  destruct (cache_timestamps_ c !! key) as [t|] eqn:Hk.
  - destruct (decide (now - t > cache_ttl_)) as [Hage|Hage].
    + rewrite decide_True; [done |]. apply elem_of_expired_keys. by exists t.
    + rewrite decide_False; [done |].
      intros (t' & Hk' & Hage')%elem_of_expired_keys. congruence.
  - rewrite decide_False; [done |].
    intros (t' & Hk' & _)%elem_of_expired_keys. congruence.
Qed.

Lemma sweep_expired_cache now c key :
  schema_cache_ (sweep_expired now c) !! key
  = match cache_timestamps_ c !! key with
    | Some fetched_at =>
        if decide (now - fetched_at > cache_ttl_) then None
        else schema_cache_ c !! key
    | None => schema_cache_ c !! key
    end.
Proof.
  unfold sweep_expired. rewrite foldl_erase_key_cache.
  destruct (cache_timestamps_ c !! key) as [t|] eqn:Hk.
  - destruct (decide (now - t > cache_ttl_)) as [Hage|Hage].
    + rewrite decide_True; [done |]. apply elem_of_expired_keys. by exists t.
    + rewrite decide_False; [done |].
      intros (t' & Hk' & Hage')%elem_of_expired_keys. congruence.
  - rewrite decide_False; [done |].
    intros (t' & Hk' & _)%elem_of_expired_keys. congruence.
Qed.

(** A fresh entry survives every sweep. *)
Lemma sweep_expired_keeps_fresh now c key document fetched_at :
  schema_cache_ c !! key = Some document →
  cache_timestamps_ c !! key = Some fetched_at →
  now - fetched_at < cache_ttl_ →
  schema_cache_ (sweep_expired now c) !! key = Some document
  ∧ cache_timestamps_ (sweep_expired now c) !! key = Some fetched_at.
Proof.
  intros Hd Ht Hage.
  rewrite sweep_expired_cache, sweep_expired_timestamps, Ht.
  rewrite !decide_False by lia. by split.
Qed.

(** An entry older than the TTL is gone after the sweep. *)
Lemma sweep_expired_removes_older now c key fetched_at :
  cache_timestamps_ c !! key = Some fetched_at →
  now - fetched_at > cache_ttl_ →
  schema_cache_ (sweep_expired now c) !! key = None
  ∧ cache_timestamps_ (sweep_expired now c) !! key = None.
Proof.
  intros Ht Hage.
  rewrite sweep_expired_cache, sweep_expired_timestamps, Ht.
  rewrite !decide_True by done. by split.
Qed.

Lemma sweep_expired_stamped now c :
  stamped c → stamped (sweep_expired now c).
Proof.
  intros Hst key. rewrite sweep_expired_cache, sweep_expired_timestamps.
  pose proof (Hst key) as Hkey.
  destruct (cache_timestamps_ c !! key) as [t|] eqn:Ht.
  - destruct (decide (now - t > cache_ttl_)); [by intros [? ?] | eauto].
  - exact Hkey.
Qed.

Lemma atomic_incr_succ (x : Z) :
  -2147483648 ≤ x < 2147483647 → atomic_incr x = x + 1.
Proof.
  intros Hx. unfold atomic_incr, int_wrap.
  rewrite Z.mod_small by lia. lia.
Qed.

Section FetchSchemaStored.

Variable json_parse : string -> result json.
Variable curl : libcurl.

(** When the path through the registry returns a document, it has
    written it, with [now], under the key. *)
Lemma fetch_from_registry_Ok now c schema_id version document :
  let out := fetch_from_registry json_parse curl now c schema_id version in
  returned out = Ok document →
  schema_cache_ (client out)
  = <[cache_key schema_id version := document]> (schema_cache_ c)
  ∧ cache_timestamps_ (client out)
    = <[cache_key schema_id version := now]> (cache_timestamps_ c).
Proof.
  intros out. subst out. unfold fetch_from_registry. cbv zeta.
  repeat (case_match; cbn; try done).
  by intros [= <-].
Qed.

Lemma registry_request_counted c schema_id version :
  registry_request (incr_schema_fetches_ (incr_cache_misses_ c))
    schema_id version
  = registry_request c schema_id version.
Proof. reflexivity. Qed.

End FetchSchemaStored.

(** ** The claims about the cache *)

(** C1. With TTL = 600 seconds: a lookup of a cached entry at age < TTL
    increments cache_hits_ and returns the document stored under the key,
    without a transfer; a lookup with no entry, or at age >= TTL,
    increments cache_misses_ and schema_fetches_ and asks the registry;
    when that succeeds the document is stored under the key with the
    current time stamp and returned. *)
Theorem fetch_schema_freshness json_parse curl now c schema_id version :
  let key := cache_key schema_id version in
  let out := fetch_schema json_parse curl now c schema_id version in
  let transfer := curl_easy_perform curl (registry_request c schema_id version) in
  cache_ttl_ = 600 * ticks_per_second
  ∧ (∀ document fetched_at,
        schema_cache_ c !! key = Some document →
        cache_timestamps_ c !! key = Some fetched_at →
        now - fetched_at < cache_ttl_ →
        out = {| returned := Ok document; client := incr_cache_hits_ c;
                 transfers := [] |}
        ∧ cache_hits_ (client out) = atomic_incr (cache_hits_ c))
  ∧ (schema_cache_ c !! key = None
     ∨ (∃ document fetched_at,
           schema_cache_ c !! key = Some document
           ∧ cache_timestamps_ c !! key = Some fetched_at
           ∧ cache_ttl_ ≤ now - fetched_at) →
     cache_hits_ (client out) = cache_hits_ c
     ∧ cache_misses_ (client out) = atomic_incr (cache_misses_ c)
     ∧ schema_fetches_ (client out) = atomic_incr (schema_fetches_ c)
     ∧ (curl_easy_init curl = true →
        transfers out = [registry_request c schema_id version])
     ∧ (∀ response_json schema_data response_json',
           curl_easy_init curl = true →
           res transfer = CURLE_OK →
           http_code transfer = 200 →
           json_parse (response transfer) = Ok response_json →
           Json.at_mut response_json "schema" = Ok (schema_data, response_json') →
           returned out = Ok schema_data
           ∧ schema_cache_ (client out) !! key = Some schema_data
           ∧ cache_timestamps_ (client out) !! key = Some now)).
Proof.
  intros key out transfer. split; [reflexivity |]. split.
  - intros document fetched_at Hd Ht Hage. subst out.
    rewrite (fetch_schema_fresh _ _ _ _ _ _ _ _ Hd Ht Hage). by split.
  - intros Hmiss.
    assert (out = fetch_from_registry json_parse curl now c schema_id version)
      as ->.
    { destruct Hmiss as [Hnone|(d & t & Hd & Ht & Hage)].
      - by apply fetch_schema_absent.
      - by apply fetch_schema_stale with d t. }
    destruct (fetch_from_registry_counters json_parse curl now c schema_id version)
      as (Hh & Hm & Hf).
    repeat split; try done.
    + by apply fetch_from_registry_transfers.
    + by eapply fetch_from_registry_success.
    + edestruct fetch_from_registry_success as (_ & -> & _); try done.
      by rewrite lookup_insert_eq.
    + edestruct fetch_from_registry_success as (_ & _ & ->); try done.
      by rewrite lookup_insert_eq.
Qed.

Lemma fetch_schema_freshness_witness :
  ((schema_cache_ Examples.warm_client !! cache_key "ticks_v1" ""
    = Some Examples.ticks_document
    ∧ cache_timestamps_ Examples.warm_client !! cache_key "ticks_v1" "" = Some 0
    ∧ seconds 599 - 0 < cache_ttl_)
   ∧ fetch_schema Examples.parse (Examples.registry "{}") (seconds 599)
       Examples.warm_client "ticks_v1" ""
     = {| returned := Ok Examples.ticks_document;
          client := incr_cache_hits_ Examples.warm_client;
          transfers := [] |})
  ∧ (schema_cache_ Examples.fresh_client !! cache_key "ticks_v1" "" = None
     ∧ cache_misses_ Examples.warm_client = 1
     ∧ schema_fetches_ Examples.warm_client = 1
     ∧ schema_cache_ Examples.warm_client !! cache_key "ticks_v1" ""
       = Some Examples.ticks_document).
Proof.
  assert (schema_cache_ Examples.warm_client !! cache_key "ticks_v1" ""
          = Some Examples.ticks_document) as Hd by reflexivity.
  assert (cache_timestamps_ Examples.warm_client !! cache_key "ticks_v1" ""
          = Some 0) as Ht by reflexivity.
  assert (seconds 599 - 0 < cache_ttl_) as Hage by reflexivity.
  assert (schema_cache_ Examples.fresh_client !! cache_key "ticks_v1" "" = None)
    as Hnone by reflexivity.
  split.
  - split; [by repeat split |].
    destruct (fetch_schema_freshness Examples.parse (Examples.registry "{}")
                (seconds 599) Examples.warm_client "ticks_v1" "")
      as (_ & Hhit & _).
    exact (proj1 (Hhit _ _ Hd Ht Hage)).
  - destruct (fetch_schema_freshness Examples.parse
                (Examples.registry Examples.ticks_body)
                0 Examples.fresh_client "ticks_v1" "")
      as (_ & _ & Hmiss).
    destruct (Hmiss (or_introl Hnone)) as (_ & Hm & Hf & _ & Hstore).
    destruct (Hstore (JObject [("schema", Examples.ticks_document)])
                Examples.ticks_document
                (JObject [("schema", Examples.ticks_document)]))
      as (_ & Hcached & _); try reflexivity.
    split; [exact Hnone |]. split; [exact Hm |]. split; [exact Hf |].
    exact Hcached.
Defined.

(** C7. A call of fetch_schema that fails (no handle, a transfer that
    fails, a status other than 200, a body that does not parse or whose
    schema member cannot be read) fails with the error of that step, and
    leaves both maps of the cache as they were; a later call for the same
    key goes to the registry again. *)
Theorem fetch_schema_failure_not_cached json_parse curl now c schema_id version e :
  stamped c →
  returned (fetch_schema json_parse curl now c schema_id version) = Throw e →
  let out := fetch_schema json_parse curl now c schema_id version in
  let request := registry_request c schema_id version in
  let transfer := curl_easy_perform curl request in
  ((curl_easy_init curl = false
    ∧ e = runtime_error "Failed to initialize CURL")
   ∨ (res transfer ≠ CURLE_OK
      ∧ e = runtime_error ("CURL request failed: "
                           +:+ curl_easy_strerror curl (res transfer)))
   ∨ (http_code transfer ≠ 200
      ∧ e = runtime_error ("HTTP request failed with code: "
                           +:+ to_string (http_code transfer)))
   ∨ json_parse (response transfer) = Throw e
   ∨ ∃ response_json,
       json_parse (response transfer) = Ok response_json
       ∧ Json.at_mut response_json "schema" = Throw e)
  ∧ schema_cache_ (client out) = schema_cache_ c
  ∧ cache_timestamps_ (client out) = cache_timestamps_ c
  ∧ ∀ json_parse' curl' now',
      now ≤ now' →
      curl_easy_init curl' = true →
      fetch_schema json_parse' curl' now' (client out) schema_id version
      = fetch_from_registry json_parse' curl' now' (client out) schema_id version
      ∧ transfers (fetch_schema json_parse' curl' now' (client out)
                     schema_id version)
        = [request].
Proof.
  intros Hst Hthrow out request transfer. subst out request transfer.
  destruct (fetch_schema_cases json_parse curl now c schema_id version Hst)
    as [(d & t & _ & _ & _ & Hhit)|[Hmiss Heq]].
  { rewrite Hhit in Hthrow. discriminate. }
  rewrite Heq in *.
  destruct (fetch_from_registry_failure json_parse curl now c schema_id version
              e Hthrow) as [Hclient Hcause].
  rewrite Hclient. cbn [schema_cache_ cache_timestamps_ incr_schema_fetches_
                        incr_cache_misses_].
  split; [exact Hcause |]. split; [done |]. split; [done |].
  intros json_parse' curl' now' Hlater Hinit'.
  assert (fetch_schema json_parse' curl' now'
            (incr_schema_fetches_ (incr_cache_misses_ c)) schema_id version
          = fetch_from_registry json_parse' curl' now'
              (incr_schema_fetches_ (incr_cache_misses_ c)) schema_id version)
    as Hagain.
  { destruct Hmiss as [Hnone|(d & t & Hd & Ht & Hage)].
    - by apply fetch_schema_absent.
    - apply fetch_schema_stale with d t; [done | done | lia]. }
  split; [exact Hagain |]. rewrite Hagain.
  rewrite fetch_from_registry_transfers by done.
  by rewrite registry_request_counted.
Qed.

Lemma fetch_schema_failure_not_cached_witness :
  (stamped Examples.fresh_client
   ∧ returned (fetch_schema Examples.parse (Examples.registry_status 503) 0
                 Examples.fresh_client "ticks_v1" "")
     = Throw (runtime_error "HTTP request failed with code: 503"))
  ∧ schema_cache_ (client (fetch_schema Examples.parse
                             (Examples.registry_status 503) 0
                             Examples.fresh_client "ticks_v1" ""))
    = schema_cache_ Examples.fresh_client.
Proof.
  assert (stamped Examples.fresh_client) as Hst
    by apply new_client_stamped.
  assert (returned (fetch_schema Examples.parse (Examples.registry_status 503) 0
                      Examples.fresh_client "ticks_v1" "")
          = Throw (runtime_error "HTTP request failed with code: 503"))
    as Hthrow by reflexivity.
  split; [by split |].
  exact (proj1 (proj2 (fetch_schema_failure_not_cached _ _ _ _ _ _ _ Hst Hthrow))).
Defined.

(** C10. The key is the identifier followed by ":" and the version when
    a version is given, and the identifier alone otherwise; for one
    identifier the key without a version differs from the key with any
    version; the key does not determine the pair: ("a:b", no version) and
    ("a", "b") have the same key, and two pairs with the same key share
    one cache entry: what a call stores for one of them, a call for the
    other finds. *)
Theorem cache_key_not_injective json_parse curl json_parse' curl' now now' c
    schema_id version schema_id' version' document :
  cache_key schema_id version = cache_key schema_id' version' →
  returned (fetch_from_registry json_parse curl now c schema_id version)
  = Ok document →
  now' - now < cache_ttl_ →
  let stored := client (fetch_from_registry json_parse curl now c
                          schema_id version) in
  (∀ id, cache_key id "" = id)
  ∧ (∀ id a v, cache_key id (String a v) = id +:+ ":" +:+ String a v)
  ∧ (∀ id a v, cache_key id "" ≠ cache_key id (String a v))
  ∧ cache_key "a:b" "" = cache_key "a" "b"
  ∧ ("a:b", "") ≠ ("a", "b")
  ∧ fetch_schema json_parse' curl' now' stored schema_id' version'
    = {| returned := Ok document; client := incr_cache_hits_ stored;
         transfers := [] |}.
Proof.
  intros Hkey Hok Hage stored.
  split; [intros id; apply append_empty_r |].
  split; [reflexivity |].
  split.
  { intros id a v. unfold cache_key. cbn [empty].
    rewrite append_empty_r. intros Heq. symmetry in Heq.
    apply append_eq_self in Heq. discriminate. }
  split; [reflexivity |]. split; [discriminate |].
  destruct (fetch_from_registry_Ok json_parse curl now c schema_id version
              document Hok) as [Hcache Hstamps].
  apply fetch_schema_fresh with now; [| | exact Hage]; subst stored.
  - rewrite Hcache, Hkey. apply lookup_insert_eq.
  - rewrite Hstamps, Hkey. apply lookup_insert_eq.
Qed.

Lemma cache_key_not_injective_witness :
  (cache_key "a" "b" = cache_key "a:b" ""
   ∧ returned (fetch_from_registry Examples.parse
                 (Examples.registry Examples.ticks_body) 0
                 Examples.fresh_client "a" "b")
     = Ok Examples.ticks_document
   ∧ seconds 1 - 0 < cache_ttl_)
  ∧ returned (fetch_schema Examples.parse (Examples.registry "{}") (seconds 1)
                (client (fetch_from_registry Examples.parse
                           (Examples.registry Examples.ticks_body) 0
                           Examples.fresh_client "a" "b"))
                "a:b" "")
    = Ok Examples.ticks_document.
Proof.
  assert (cache_key "a" "b" = cache_key "a:b" "") as Hkey by reflexivity.
  assert (returned (fetch_from_registry Examples.parse
                      (Examples.registry Examples.ticks_body) 0
                      Examples.fresh_client "a" "b")
          = Ok Examples.ticks_document) as Hok by reflexivity.
  assert (seconds 1 - 0 < cache_ttl_) as Hage by reflexivity.
  split; [by repeat split |].
  destruct (cache_key_not_injective Examples.parse
              (Examples.registry Examples.ticks_body)
              Examples.parse (Examples.registry "{}") 0 (seconds 1)
              Examples.fresh_client "a" "b" "a:b" "" Examples.ticks_document
              Hkey Hok Hage) as (_ & _ & _ & _ & _ & ->).
  reflexivity.
Defined.

(** C2, at the age the sweep and the lookup disagree on. An entry whose
    age is exactly the TTL is not fresh for fetch_schema, which goes to
    the registry for it, and yet the sweep at that time keeps it in both
    maps: the sweep compares with [>] where the lookup compares with [<]. *)
Theorem sweep_expired_keeps_age_ttl json_parse curl now c schema_id version
    document fetched_at :
  schema_cache_ c !! cache_key schema_id version = Some document →
  cache_timestamps_ c !! cache_key schema_id version = Some fetched_at →
  now - fetched_at = cache_ttl_ →
  schema_cache_ (sweep_expired now c) !! cache_key schema_id version
  = Some document
  ∧ cache_timestamps_ (sweep_expired now c) !! cache_key schema_id version
    = Some fetched_at
  ∧ fetch_schema json_parse curl now c schema_id version
    = fetch_from_registry json_parse curl now c schema_id version.
Proof.
  intros Hd Ht Hage.
  rewrite sweep_expired_cache, sweep_expired_timestamps, Ht.
  rewrite !decide_False by lia.
  split; [done |]. split; [done |].
  apply fetch_schema_stale with document fetched_at; [done | done | lia].
Qed.

Lemma sweep_expired_keeps_age_ttl_witness :
  (schema_cache_ Examples.warm_client !! cache_key "ticks_v1" ""
   = Some Examples.ticks_document
   ∧ cache_timestamps_ Examples.warm_client !! cache_key "ticks_v1" "" = Some 0
   ∧ seconds 600 - 0 = cache_ttl_)
  ∧ schema_cache_ (sweep_expired (seconds 600) Examples.warm_client)
      !! cache_key "ticks_v1" ""
    = Some Examples.ticks_document.
Proof.
  assert (schema_cache_ Examples.warm_client !! cache_key "ticks_v1" ""
          = Some Examples.ticks_document) as Hd by reflexivity.
  assert (cache_timestamps_ Examples.warm_client !! cache_key "ticks_v1" ""
          = Some 0) as Ht by reflexivity.
  assert (seconds 600 - 0 = cache_ttl_) as Hage by reflexivity.
  split; [by repeat split |].
  exact (proj1 (sweep_expired_keeps_age_ttl Examples.parse
                  (Examples.registry "{}") (seconds 600) Examples.warm_client
                  "ticks_v1" "" Examples.ticks_document 0 Hd Ht Hage)).
Defined.

(** ** The translation *)

Lemma for_each_Forall2 {A B} (body : A → result B) (l : list A) (out : list B) :
  for_each body l = Ok out ↔ Forall2 (λ x y, body x = Ok y) l out.
Proof.
  revert out. induction l as [|x l IH]; intros out; cbn.
  - split; [intros [= <-]; constructor | by intros ->%Forall2_nil_inv_l].
  - destruct (body x) as [y|e] eqn:Hx; cbn.
    + destruct (for_each body l) as [ys|e] eqn:Hl; cbn.
      * split.
        -- intros [= <-]. constructor; [done | by apply IH].
        -- intros (y' & ys' & Hy & Hys & ->)%Forall2_cons_inv_l.
           apply IH in Hys. congruence.
      * split; [done |].
        intros (y' & ys' & Hy & Hys & ->)%Forall2_cons_inv_l.
        apply IH in Hys. discriminate.
    + split; [done |].
      intros (y' & ys' & Hy & Hys & ->)%Forall2_cons_inv_l. congruence.
Qed.

Lemma for_each_is_Ok {A B} (body : A → result B) (l : list A) :
  is_Ok (for_each body l) = true ↔ Forall (λ x, is_Ok (body x) = true) l.
Proof.
  induction l as [|x l IH]; cbn.
  - split; [constructor | done].
  - rewrite Forall_cons. destruct (body x) as [y|e]; cbn.
    + destruct (for_each body l) as [ys|e]; cbn in *; tauto.
    + split; [done | by intros [? _]].
Qed.

Lemma for_each_length {A B} (body : A → result B) (l : list A) (out : list B) :
  for_each body l = Ok out → length out = length l.
Proof.
  intros H%for_each_Forall2. symmetry. by eapply Forall2_length.
Qed.

Lemma native_field_Ok it entry_members field_name type_members type_name :
  Json.it_value it = JObject entry_members →
  Json.find "name" entry_members = Some (JString field_name) →
  Json.find "type" entry_members = Some (JObject type_members) →
  Json.find "name" type_members = Some (JString type_name) →
  native_field it
  = arrow_type ← native_type (JObject type_members) type_name;
    Ok {| name := field_name; type := arrow_type |}.
Proof.
  intros Hit Hname Htype Htn. unfold native_field.
  rewrite Hit. cbn. rewrite Hname. cbn. rewrite Htype. cbn.
  rewrite Htn. cbn. reflexivity.
Qed.

Lemma native_entry_field key entry f :
  native_entry entry f → native_field (key, entry) = Ok f.
Proof.
  intros (em & tm & tn & -> & Hname & Htype & Htn & Hty).
  rewrite (native_field_Ok _ em (name f) tm tn) by done.
  rewrite Hty. cbn. by destruct f.
Qed.

Lemma property_field_Ok key schema_members json_type :
  Json.find "type" schema_members = Some (JString json_type) →
  property_field (Some key, JObject schema_members)
  = Ok {| name := key; type := property_type json_type |}.
Proof.
  intros Htype. unfold property_field. cbn. rewrite Htype. reflexivity.
Qed.

Lemma property_entry_field member f :
  property_entry member f → property_field (Some member.1, member.2) = Ok f.
Proof.
  intros (pm & kind & -> & Htype & ->). by apply property_field_Ok.
Qed.

(** The test of line 130 on an object. *)
Lemma has_arrow_fields_object members :
  has_arrow_fields (JObject members)
  = Ok (match Json.find "arrow" members with
        | Some arrow => Json.contains arrow "fields"
        | None => false
        end).
Proof.
  unfold has_arrow_fields. cbn.
  by destruct (Json.find "arrow" members).
Qed.

Lemma has_arrow_fields_not_object schema_json :
  (∀ members, schema_json ≠ JObject members) →
  has_arrow_fields schema_json = Ok false.
Proof. intros Hno. destruct schema_json; try done. by destruct (Hno members). Qed.

(** With [arrow.fields] there, the loop runs over it and nothing else of
    the document is read. *)
Lemma create_arrow_schema_native members arrow_members arrow_fields :
  Json.find "arrow" members = Some (JObject arrow_members) →
  Json.find "fields" arrow_members = Some arrow_fields →
  create_arrow_schema (JObject members)
  = for_each native_field (Json.items arrow_fields).
Proof.
  intros Harrow Hfields. unfold create_arrow_schema.
  rewrite has_arrow_fields_object, Harrow. cbn.
  rewrite Hfields. cbn. rewrite Harrow. cbn. by rewrite Hfields.
Qed.

(** Without it, the loop runs over [properties]. *)
Lemma create_arrow_schema_properties members :
  has_arrow_fields (JObject members) = Ok false →
  create_arrow_schema (JObject members)
  = properties ← Json.at_const (JObject members) "properties";
    for_each property_field (Json.items properties).
Proof. intros Hno. unfold create_arrow_schema. by rewrite Hno. Qed.

Lemma ts_native_entry :
  native_entry (JObject TranslationExamples.ts_entry)
    {| name := "ts"; type := timestamp TimeUnit.NANO |}.
Proof. exists TranslationExamples.ts_entry, TranslationExamples.ts_type, "timestamp". by repeat split. Qed.

Lemma px_native_entry :
  native_entry (JObject TranslationExamples.px_entry) {| name := "px"; type := float64 |}.
Proof. exists TranslationExamples.px_entry, TranslationExamples.px_type, "float64". by repeat split. Qed.

Lemma qty_property_entry :
  property_entry ("qty", JObject [("type", JString "integer")])
    {| name := "qty"; type := int64 |}.
Proof. exists [("type", JString "integer")], "integer". by repeat split. Qed.

Lemma sym_property_entry :
  property_entry ("sym", JObject [("type", JString "string")])
    {| name := "sym"; type := utf8 |}.
Proof. exists [("type", JString "string")], "string". by repeat split. Qed.

(** C3. A document with a native field array is translated from that
    array alone, one field per entry and in the order of the array,
    whatever else the document holds (a properties map too); a document
    without it is translated from its properties map, one field per
    member in the order of the map, with integer, number and string
    becoming int64, float64 and utf8. (The document has the native source
    when line 130 finds [arrow.fields]; its entries are what a loop over
    that value visits, for an array its elements in order.) *)
Theorem create_arrow_schema_source_order members :
  (∀ arrow_members arrow_fields fields,
      Json.find "arrow" members = Some (JObject arrow_members) →
      Json.find "fields" arrow_members = Some arrow_fields →
      Forall2 native_entry (map Json.it_value (Json.items arrow_fields)) fields →
      create_arrow_schema (JObject members) = Ok fields
      ∧ ∀ members',
          Json.find "arrow" members' = Json.find "arrow" members →
          create_arrow_schema (JObject members') = Ok fields)
  ∧ (∀ entries, map Json.it_value (Json.items (JArray entries)) = entries)
  ∧ (∀ properties fields,
        has_arrow_fields (JObject members) = Ok false →
        Json.find "properties" members = Some (JObject properties) →
        Forall2 property_entry properties fields →
        create_arrow_schema (JObject members) = Ok fields
        ∧ map name fields = map fst properties)
  ∧ property_type "integer" = int64
  ∧ property_type "number" = float64
  ∧ property_type "string" = utf8.
Proof.
  split; [| split; [| split; [| by repeat split]]].
  - intros arrow_members arrow_fields fields Harrow Hfields Hentries.
    assert (for_each native_field (Json.items arrow_fields) = Ok fields)
      as Hloop.
    { apply for_each_Forall2.
      change (Forall2 native_entry (Json.it_value <$> Json.items arrow_fields)
                fields) in Hentries.
      eapply Forall2_impl;
        [exact (proj1 (Forall2_fmap_l _ _ _ _) Hentries) |].
      intros [key entry] f Hentry. by apply native_entry_field. }
    split.
    + by rewrite (create_arrow_schema_native _ _ _ Harrow Hfields).
    + intros members' Hsame. rewrite <- Hsame in Harrow.
      by rewrite (create_arrow_schema_native _ _ _ Harrow Hfields).
  - intros entries. cbn. induction entries as [|entry entries IH]; [done |].
    cbn. by rewrite IH.
  - intros properties fields Hno Hprops Hentries.
    rewrite (create_arrow_schema_properties _ Hno). cbn. rewrite Hprops. cbn.
    split.
    + apply for_each_Forall2, Forall2_fmap_l.
      eapply Forall2_impl; [exact Hentries |].
      intros member f Hmember. by apply property_entry_field.
    + clear Hprops. induction Hentries as [|member f l fs Hm _ IH]; [done |].
      cbn. rewrite IH. by destruct Hm as (pm & kind & _ & _ & ->).
Qed.

Lemma create_arrow_schema_source_order_witness :
  (Forall2 native_entry
     [JObject TranslationExamples.ts_entry; JObject TranslationExamples.px_entry]
     [ {| name := "ts"; type := timestamp TimeUnit.NANO |};
       {| name := "px"; type := float64 |} ]
   ∧ create_arrow_schema (JObject TranslationExamples.both)
     = Ok [ {| name := "ts"; type := timestamp TimeUnit.NANO |};
            {| name := "px"; type := float64 |} ])
  ∧ (Forall2 property_entry TranslationExamples.properties
       [ {| name := "qty"; type := int64 |}; {| name := "sym"; type := utf8 |} ]
     ∧ create_arrow_schema (JObject TranslationExamples.generic)
       = Ok [ {| name := "qty"; type := int64 |};
              {| name := "sym"; type := utf8 |} ]).
Proof.
  assert (Forall2 native_entry
            [JObject TranslationExamples.ts_entry;
             JObject TranslationExamples.px_entry]
            [ {| name := "ts"; type := timestamp TimeUnit.NANO |};
              {| name := "px"; type := float64 |} ]) as Hnative.
  { repeat constructor;
      [apply ts_native_entry | apply px_native_entry]. }
  assert (Forall2 property_entry TranslationExamples.properties
            [ {| name := "qty"; type := int64 |};
              {| name := "sym"; type := utf8 |} ]) as Hgeneric.
  { repeat constructor;
      [apply qty_property_entry
      | apply sym_property_entry]. }
  split; (split; [done |]).
  - destruct (create_arrow_schema_source_order TranslationExamples.both)
      as (Hn & _).
    exact (proj1 (Hn [("fields", JArray [JObject TranslationExamples.ts_entry;
                                         JObject TranslationExamples.px_entry])]
                    (JArray [JObject TranslationExamples.ts_entry;
                             JObject TranslationExamples.px_entry])
                    _ eq_refl eq_refl Hnative)).
  - destruct (create_arrow_schema_source_order TranslationExamples.generic)
      as (_ & _ & Hp & _).
    exact (proj1 (Hp TranslationExamples.properties _ eq_refl eq_refl Hgeneric)).
Defined.

Lemma eqb_not_elem_of (s k : string) (l : list string) :
  s ∉ k :: l → String.eqb s k = false ∧ s ∉ l.
Proof.
  intros Hnot. split.
  - apply String.eqb_neq. intros ->. apply Hnot. by left.
  - intros Hin. apply Hnot. by right.
Qed.

(** A type name outside the table gives utf8, whatever the type object
    holds besides. *)
Lemma native_type_unknown field_type type_name :
  type_name ∉ ["int32"; "int64"; "float32"; "float64"; "utf8"; "timestamp"] →
  native_type field_type type_name = Ok utf8.
Proof.
  intros Hnot. unfold native_type.
  repeat (apply eqb_not_elem_of in Hnot as [-> Hnot]). reflexivity.
Qed.

Lemma property_type_unknown json_type :
  json_type ∉ ["integer"; "number"; "string"] →
  property_type json_type = utf8.
Proof.
  intros Hnot. unfold property_type.
  repeat (apply eqb_not_elem_of in Hnot as [-> Hnot]). reflexivity.
Qed.

(** C9. An entry of the native field list whose type name is none of
    int32, int64, float32, float64, utf8, timestamp, and a property whose
    declared kind is none of integer, number, string, give a field of the
    string type utf8, not an error. *)
Theorem unknown_type_defaults_to_utf8 :
  (∀ it entry_members field_name type_members type_name,
      Json.it_value it = JObject entry_members →
      Json.find "name" entry_members = Some (JString field_name) →
      Json.find "type" entry_members = Some (JObject type_members) →
      Json.find "name" type_members = Some (JString type_name) →
      type_name ∉ ["int32"; "int64"; "float32"; "float64"; "utf8"; "timestamp"] →
      native_field it = Ok {| name := field_name; type := utf8 |})
  ∧ (∀ key schema_members json_type,
        Json.find "type" schema_members = Some (JString json_type) →
        json_type ∉ ["integer"; "number"; "string"] →
        property_field (Some key, JObject schema_members)
        = Ok {| name := key; type := utf8 |}).
Proof.
  split.
  - intros it em n tm tn Hit Hname Htype Htn Hnot.
    rewrite (native_field_Ok it em n tm tn) by done.
    by rewrite native_type_unknown.
  - intros key pm kind Htype Hnot.
    rewrite (property_field_Ok key pm kind) by done.
    by rewrite property_type_unknown.
Qed.

Lemma unknown_type_defaults_to_utf8_witness :
  (("decimal128"
    ∉ ["int32"; "int64"; "float32"; "float64"; "utf8"; "timestamp"])
   ∧ native_field
       (None, JObject [("name", JString "px");
                       ("type", JObject [("name", JString "decimal128")])])
     = Ok {| name := "px"; type := utf8 |})
  ∧ (("boolean" ∉ ["integer"; "number"; "string"])
     ∧ property_field (Some "flag", JObject [("type", JString "boolean")])
       = Ok {| name := "flag"; type := utf8 |}).
Proof.
  assert ("decimal128"
          ∉ ["int32"; "int64"; "float32"; "float64"; "utf8"; "timestamp"])
    as Hnative.
  { intros Hin. repeat (apply elem_of_cons in Hin as [Hin|Hin]; [discriminate |]).
    by apply elem_of_nil in Hin. }
  assert ("boolean" ∉ ["integer"; "number"; "string"]) as Hgeneric.
  { intros Hin. repeat (apply elem_of_cons in Hin as [Hin|Hin]; [discriminate |]).
    by apply elem_of_nil in Hin. }
  split; (split; [done |]).
  - exact (proj1 unknown_type_defaults_to_utf8
             (None, JObject [("name", JString "px");
                             ("type", JObject [("name", JString "decimal128")])])
             _ "px" _ "decimal128" eq_refl eq_refl eq_refl eq_refl Hnative).
  - exact (proj2 unknown_type_defaults_to_utf8 "flag"
             [("type", JString "boolean")] "boolean" eq_refl Hgeneric).
Defined.

(** C4 as the specification has it fails: with no unit in the type object
    the time unit is not seconds. *)
Lemma missing_unit_is_not_seconds :
  ¬ (∀ field_name type_members,
        Json.find "name" type_members = Some (JString "timestamp") →
        Json.find "unit" type_members = None →
        native_field (None, JObject [("name", JString field_name);
                                     ("type", JObject type_members)])
        = Ok {| name := field_name; type := timestamp TimeUnit.SECOND |}).
Proof.
  intros Hclaim.
  specialize (Hclaim "ts" [("name", JString "timestamp")] eq_refl eq_refl).
  discriminate Hclaim.
Qed.

(** C4, amended. For an entry of the native field list whose type name
    is timestamp: the unit "us" gives microseconds and "ns" nanoseconds;
    without a unit the lookup falls back on "us" and gives microseconds;
    a unit that is another string gives seconds; a unit that is not a
    string is a type error. *)
Theorem timestamp_unit_hint it entry_members field_name type_members :
  Json.it_value it = JObject entry_members →
  Json.find "name" entry_members = Some (JString field_name) →
  Json.find "type" entry_members = Some (JObject type_members) →
  Json.find "name" type_members = Some (JString "timestamp") →
  (Json.find "unit" type_members = Some (JString "us") →
   native_field it
   = Ok {| name := field_name; type := timestamp TimeUnit.MICRO |})
  ∧ (Json.find "unit" type_members = Some (JString "ns") →
     native_field it
     = Ok {| name := field_name; type := timestamp TimeUnit.NANO |})
  ∧ (Json.find "unit" type_members = None →
     native_field it
     = Ok {| name := field_name; type := timestamp TimeUnit.MICRO |})
  ∧ (∀ unit, Json.find "unit" type_members = Some (JString unit) →
             unit ≠ "us" → unit ≠ "ns" →
             native_field it
             = Ok {| name := field_name; type := timestamp TimeUnit.SECOND |})
  ∧ (∀ unit, Json.find "unit" type_members = Some unit →
             (∀ s, unit ≠ JString s) →
             native_field it = Throw (type_error 302)).
Proof.
  intros Hit Hname Htype Htn.
  rewrite (native_field_Ok it entry_members field_name type_members "timestamp")
    by done.
  unfold native_type. cbn [String.eqb Ascii.eqb Bool.eqb].
  unfold Json.value. repeat split.
  - by intros ->.
  - by intros ->.
  - by intros ->.
  - intros unit -> Hus%String.eqb_neq Hns%String.eqb_neq. cbn.
    by rewrite Hus, Hns.
  - intros unit -> Hno. destruct unit; try done. by destruct (Hno s).
Qed.

Lemma timestamp_unit_hint_witness :
  (Json.find "unit" [("name", JString "timestamp")] = None
   ∧ native_field (None, JObject [("name", JString "ts");
                                  ("type", JObject [("name", JString "timestamp")])])
     = Ok {| name := "ts"; type := timestamp TimeUnit.MICRO |})
  ∧ (Json.find "unit" [("name", JString "timestamp"); ("unit", JString "ms")]
     = Some (JString "ms")
     ∧ native_field
         (None, JObject [("name", JString "ts");
                         ("type", JObject [("name", JString "timestamp");
                                           ("unit", JString "ms")])])
       = Ok {| name := "ts"; type := timestamp TimeUnit.SECOND |}).
Proof.
  split; (split; [reflexivity |]).
  - destruct (timestamp_unit_hint
                (None, JObject [("name", JString "ts");
                                ("type", JObject [("name", JString "timestamp")])])
                _ "ts" [("name", JString "timestamp")]
                eq_refl eq_refl eq_refl eq_refl) as (_ & _ & Hnone & _).
    exact (Hnone eq_refl).
  - destruct (timestamp_unit_hint
                (None, JObject [("name", JString "ts");
                                ("type", JObject [("name", JString "timestamp");
                                                  ("unit", JString "ms")])])
                _ "ts" [("name", JString "timestamp"); ("unit", JString "ms")]
                eq_refl eq_refl eq_refl eq_refl) as (_ & _ & _ & Hother & _).
    apply (Hother "ms"); [reflexivity | discriminate | discriminate].
Defined.

Lemma native_type_is_Ok type_members type_name :
  is_Ok (native_type (JObject type_members) type_name) = true
  ↔ (type_name = "timestamp" →
     ∀ unit, Json.find "unit" type_members = Some unit → ∃ s, unit = JString s).
Proof.
  unfold native_type.
  destruct (String.eqb_spec type_name "int32") as [->|_]; [done |].
  destruct (String.eqb_spec type_name "int64") as [->|_]; [done |].
  destruct (String.eqb_spec type_name "float32") as [->|_]; [done |].
  destruct (String.eqb_spec type_name "float64") as [->|_]; [done |].
  destruct (String.eqb_spec type_name "utf8") as [->|_]; [done |].
  destruct (String.eqb_spec type_name "timestamp") as [->|Hne]; [| done].
  cbn. destruct (Json.find "unit" type_members) as [unit|]; cbn.
  - destruct unit; cbn;
      try (split; [done | intros H; by destruct (H eq_refl _ eq_refl)]).
    split; [| by repeat case_match].
    intros _ _ unit [= <-]. by exists s.
  - split; [done | by repeat case_match].
Qed.

Lemma native_field_is_Ok it :
  is_Ok (native_field it) = true ↔ well_formed_native (Json.it_value it).
Proof.
  split.
  - unfold native_field. destruct (Json.it_value it) as [|em| | | | | |]; try done.
    cbn. destruct (Json.find "name" em) as [[| | |n| | | |]|] eqn:Hname; try done.
    cbn. destruct (Json.find "type" em) as [field_type|] eqn:Htype; [| done].
    cbn. destruct field_type as [|tm| | | | | |]; try done.
    cbn. destruct (Json.find "name" tm) as [[| | |tn| | | |]|] eqn:Htn; try done.
    cbn. intros Hok. exists em, n, tm, tn. repeat split; try done.
    apply native_type_is_Ok.
    by destruct (native_type (JObject tm) tn).
  - intros (em & n & tm & tn & Hit & Hname & Htype & Htn & Hunit).
    rewrite (native_field_Ok it em n tm tn) by done.
    apply native_type_is_Ok in Hunit.
    by destruct (native_type (JObject tm) tn).
Qed.

Lemma property_field_is_Ok key field_schema :
  is_Ok (property_field (Some key, field_schema)) = true
  ↔ well_formed_property field_schema.
Proof.
  split.
  - unfold property_field. cbn.
    destruct field_schema as [|pm| | | | | |]; try done.
    cbn. destruct (Json.find "type" pm) as [[| | |kind| | | |]|] eqn:Htype;
      try done.
    intros _. by exists pm, kind.
  - intros (pm & kind & -> & Htype). by rewrite (property_field_Ok key pm kind).
Qed.

(** C8 as the specification has it fails: a property that does not
    declare its kind makes the translation fail. *)
Lemma create_arrow_schema_not_total :
  ¬ (∀ schema_json, ∃ fields, create_arrow_schema schema_json = Ok fields).
Proof.
  intros Htotal.
  destruct (Htotal (JObject [("properties", JObject [("qty", JObject [])])]))
    as [fields Hfields].
  discriminate Hfields.
Qed.

Lemma for_each_Throw {A B} (body : A → result B) (l : list A) (P : exn → Prop) :
  Forall (λ x, ∀ e, body x = Throw e → P e) l →
  ∀ e, for_each body l = Throw e → P e.
Proof.
  induction 1 as [|x l Hx _ IH]; intros e; cbn; [done |].
  destruct (body x) as [y|e'] eqn:Hbody; cbn.
  - destruct (for_each body l) as [ys|e'']; cbn; [done |].
    intros [= <-]. by apply IH.
  - intros [= <-]. by apply Hx.
Qed.

(** What a round of the native loop throws on an entry that has both
    members: a type error of the conversions and lookups, 302 or 305. *)
Lemma native_field_Throw it e :
  has_name_and_type (Json.it_value it) →
  native_field it = Throw e →
  e = type_error 302 ∨ e = type_error 305.
Proof.
  intros Hboth. unfold native_field.
  destruct (Json.it_value it) as [|em| | | | | |];
    try (cbn; intros [= <-]; by right).
  destruct (Hboth em eq_refl) as [[name_json Hname] [type_json Htype]].
  cbn. rewrite Hname. cbn.
  destruct name_json as [| | |n| | | |]; try (cbn; intros [= <-]; by left).
  cbn. rewrite Htype. cbn.
  destruct type_json as [|tm| | | | | |]; try (cbn; intros [= <-]; tauto).
  cbn. destruct (Json.find "name" tm) as [[| | |tn| | | |]|];
    try (cbn; intros [= <-]; by left).
  cbn. unfold native_type.
  repeat (case_match; try done).
  cbn. destruct (Json.find "unit" tm) as [[| | |unit| | | |]|];
    cbn; try (intros [= <-]; by left); repeat (case_match; try done).
Qed.

(** What a round of the properties loop throws on a member of an object:
    a type error too. *)
Lemma property_field_Throw key field_schema e :
  property_field (Some key, field_schema) = Throw e →
  e = type_error 302 ∨ e = type_error 305.
Proof.
  unfold property_field. cbn.
  destruct field_schema as [|pm| | | | | |]; try (cbn; intros [= <-]; tauto).
  cbn. destruct (Json.find "type" pm) as [[| | |kind| | | |]|];
    cbn; try (intros [= <-]; by left); done.
Qed.

(** C8, amended. The translation is a function of the document, but not
    a total one. With a native field array whose entries hold a name and
    a type member, and with a properties object, it returns a field
    sequence, one field per entry, exactly when every entry is well
    formed (a string name and a type object with a string name, the unit
    of a timestamp absent or a string; a property with a string type);
    otherwise it throws a type error, 302 or 305, which the handler of
    the caller catches. A document that is not an object makes it throw
    type error 305. There are no defaults for a lacking or mistyped name
    or kind. *)
Theorem create_arrow_schema_succeeds_iff :
  (∀ members arrow_members entries,
      Json.find "arrow" members = Some (JObject arrow_members) →
      Json.find "fields" arrow_members = Some (JArray entries) →
      Forall has_name_and_type entries →
      (is_Ok (create_arrow_schema (JObject members)) = true
       ↔ Forall well_formed_native entries)
      ∧ (∀ fields, create_arrow_schema (JObject members) = Ok fields →
                   length fields = length entries)
      ∧ (∀ e, create_arrow_schema (JObject members) = Throw e →
              (e = type_error 302 ∨ e = type_error 305)
              ∧ catchable e = true))
  ∧ (∀ members properties,
        has_arrow_fields (JObject members) = Ok false →
        Json.find "properties" members = Some (JObject properties) →
        (is_Ok (create_arrow_schema (JObject members)) = true
         ↔ Forall (λ member, well_formed_property member.2) properties)
        ∧ (∀ fields, create_arrow_schema (JObject members) = Ok fields →
                     length fields = length properties)
        ∧ (∀ e, create_arrow_schema (JObject members) = Throw e →
                (e = type_error 302 ∨ e = type_error 305)
                ∧ catchable e = true))
  ∧ (∀ schema_json,
        (∀ members, schema_json ≠ JObject members) →
        create_arrow_schema schema_json = Throw (type_error 305)
        ∧ catchable (type_error 305) = true).
Proof.
  assert (∀ e, e = type_error 302 ∨ e = type_error 305 →
               (e = type_error 302 ∨ e = type_error 305) ∧ catchable e = true)
    as Hcatch.
  { intros e [->| ->]; split; eauto. }
  split; [| split].
  - intros members arrow_members entries Harrow Hfields Hboth.
    rewrite (create_arrow_schema_native _ _ _ Harrow Hfields).
    split; [| split].
    + rewrite for_each_is_Ok. cbn. rewrite Forall_fmap. apply Forall_iff.
      intros entry. apply (native_field_is_Ok (None, entry)).
    + intros fields Hloop%for_each_length. cbn in Hloop.
      by rewrite length_map in Hloop.
    + intros e Hthrow. apply Hcatch. revert e Hthrow.
      apply for_each_Throw. cbn. rewrite Forall_fmap.
      eapply Forall_impl; [exact Hboth |].
      intros entry Hentry e. by apply native_field_Throw.
  - intros members properties Hno Hprops.
    rewrite (create_arrow_schema_properties _ Hno). cbn. rewrite Hprops. cbn.
    split; [| split].
    + rewrite for_each_is_Ok, Forall_fmap. apply Forall_iff.
      intros [key v]. apply property_field_is_Ok.
    + intros fields Hloop%for_each_length. by rewrite length_map in Hloop.
    + intros e Hthrow. apply Hcatch. revert e Hthrow.
      apply for_each_Throw. rewrite Forall_fmap. apply Forall_forall.
      intros [key v] _ e. apply property_field_Throw.
  - intros schema_json Hno. split; [| done]. unfold create_arrow_schema.
    rewrite (has_arrow_fields_not_object _ Hno). cbn.
    destruct schema_json; try done. by destruct (Hno members).
Qed.

Lemma create_arrow_schema_succeeds_iff_witness :
  (Json.find "arrow" TranslationExamples.both
   = Some (JObject [("fields", JArray [JObject TranslationExamples.ts_entry;
                                       JObject TranslationExamples.px_entry])])
   ∧ Json.find "fields"
       [("fields", JArray [JObject TranslationExamples.ts_entry;
                           JObject TranslationExamples.px_entry])]
     = Some (JArray [JObject TranslationExamples.ts_entry;
                     JObject TranslationExamples.px_entry])
   ∧ Forall has_name_and_type [JObject TranslationExamples.ts_entry;
                               JObject TranslationExamples.px_entry])
  ∧ (is_Ok (create_arrow_schema (JObject TranslationExamples.both)) = true
     ↔ Forall well_formed_native [JObject TranslationExamples.ts_entry;
                                  JObject TranslationExamples.px_entry])
  ∧ (has_arrow_fields (JObject [("properties", JObject [("qty", JObject [])])])
     = Ok false
     ∧ Json.find "properties" [("properties", JObject [("qty", JObject [])])]
       = Some (JObject [("qty", JObject [])])
     ∧ create_arrow_schema (JObject [("properties", JObject [("qty", JObject [])])])
       = Throw (type_error 302))
  ∧ catchable (type_error 302) = true.
Proof.
  assert (Forall has_name_and_type [JObject TranslationExamples.ts_entry;
                                    JObject TranslationExamples.px_entry])
    as Hboth.
  { constructor; [| constructor; [| constructor]];
      intros entry_members [= <-]; split; by eexists. }
  split; [by repeat split |].
  split.
  - exact (proj1 (proj1 create_arrow_schema_succeeds_iff
                    TranslationExamples.both _ _ eq_refl eq_refl Hboth)).
  - split; [by repeat split |].
    exact (proj2 (proj2 (proj2 (proj1 (proj2 create_arrow_schema_succeeds_iff)
                                  [("properties", JObject [("qty", JObject [])])]
                                  [("qty", JObject [])] eq_refl eq_refl))
                    (type_error 302) eq_refl)).
Defined.

(** ** The response of the registry *)

(** C5 as the specification has it fails: a body that parses to an
    object without a [schema] member does not make the call fail. *)
Lemma missing_schema_member_is_no_error :
  ¬ (∀ json_parse curl now c schema_id version members,
        schema_cache_ c !! cache_key schema_id version = None →
        curl_easy_init curl = true →
        res (curl_easy_perform curl (registry_request c schema_id version))
        = CURLE_OK →
        http_code (curl_easy_perform curl (registry_request c schema_id version))
        = 200 →
        json_parse
          (response (curl_easy_perform curl
                       (registry_request c schema_id version)))
        = Ok (JObject members) →
        Json.find "schema" members = None →
        ∃ e, returned (fetch_schema json_parse curl now c schema_id version)
             = Throw e).
Proof.
  intros Hclaim.
  destruct (Hclaim Examples.parse (Examples.registry "{}") 0
              Examples.fresh_client "ticks_v1" "" []
              eq_refl eq_refl eq_refl eq_refl eq_refl eq_refl) as [e He].
  discriminate He.
Qed.

(** C5, amended. After a transfer with status 200: a body that does not
    parse makes the call fail with the exception of the parser; a body
    that parses to something other than an object or null makes it fail
    with type_error 305; in both cases nothing is cached. A body that
    parses to null or to an object without a [schema] member does not
    fail: the call returns the null document and caches it under the key. *)
Theorem fetch_schema_malformed_response json_parse curl now c schema_id version :
  let out := fetch_from_registry json_parse curl now c schema_id version in
  let transfer := curl_easy_perform curl (registry_request c schema_id version) in
  curl_easy_init curl = true →
  res transfer = CURLE_OK →
  http_code transfer = 200 →
  (∀ e, json_parse (response transfer) = Throw e →
        returned out = Throw e
        ∧ schema_cache_ (client out) = schema_cache_ c
        ∧ cache_timestamps_ (client out) = cache_timestamps_ c)
  ∧ (∀ response_json,
        json_parse (response transfer) = Ok response_json →
        response_json ≠ JNull →
        (∀ members, response_json ≠ JObject members) →
        returned out = Throw (type_error 305)
        ∧ schema_cache_ (client out) = schema_cache_ c
        ∧ cache_timestamps_ (client out) = cache_timestamps_ c)
  ∧ (∀ response_json,
        json_parse (response transfer) = Ok response_json →
        response_json = JNull
        ∨ (∃ members, response_json = JObject members
                      ∧ Json.find "schema" members = None) →
        returned out = Ok JNull
        ∧ schema_cache_ (client out) !! cache_key schema_id version = Some JNull
        ∧ cache_timestamps_ (client out) !! cache_key schema_id version
          = Some now).
Proof.
  intros out transfer Hinit Hres Hcode. subst out transfer.
  unfold fetch_from_registry. cbv zeta. rewrite Hinit, Hres, Hcode.
  cbn [negb Z.eqb CURLE_OK Pos.eqb].
  split; [| split].
  - intros e ->. by cbn.
  - intros response_json -> Hnull Hobject. cbn.
    destruct response_json; try done. by destruct (Hobject members).
  - intros response_json -> [->|(members & -> & Hschema)]; cbn.
    + by rewrite !lookup_insert_eq.
    + rewrite Hschema. cbn. by rewrite !lookup_insert_eq.
Qed.

Lemma fetch_schema_malformed_response_witness :
  (curl_easy_init (Examples.registry "{}") = true
   ∧ res (curl_easy_perform (Examples.registry "{}")
            (registry_request Examples.fresh_client "ticks_v1" "")) = CURLE_OK
   ∧ http_code (curl_easy_perform (Examples.registry "{}")
                  (registry_request Examples.fresh_client "ticks_v1" "")) = 200)
  ∧ returned (fetch_from_registry Examples.parse (Examples.registry "{}") 0
                Examples.fresh_client "ticks_v1" "")
    = Ok JNull.
Proof.
  split; [by repeat split |].
  destruct (fetch_schema_malformed_response Examples.parse
              (Examples.registry "{}") 0 Examples.fresh_client "ticks_v1" ""
              eq_refl eq_refl eq_refl) as (_ & _ & Hnull).
  refine (proj1 (Hnull (JObject []) eq_refl _)).
  right. by exists [].
Defined.

(** ** The statistics *)

(** C6, on a client that has served no request. The snapshot divides
    0 by 0.0: its cache_hit_ratio is the NaN of the doubles, not 0;
    nothing in get_stats looks at the denominator first. *)
Theorem cache_hit_ratio_without_requests c :
  cache_hits_ c = 0 →
  cache_misses_ c = 0 →
  stat (get_stats c) "cache_hit_ratio" = Ok (JNumberFloat S754_nan)
  ∧ JNumberFloat S754_nan ≠ JNumberFloat (double_of_int 0)
  ∧ JNumberFloat S754_nan ≠ JNumberInteger 0.
Proof.
  intros Hhits Hmisses. unfold get_stats. rewrite Hhits, Hmisses.
  by repeat split.
Qed.

Lemma cache_hit_ratio_without_requests_witness :
  (cache_hits_ Examples.fresh_client = 0
   ∧ cache_misses_ Examples.fresh_client = 0)
  ∧ stat (get_stats Examples.fresh_client) "cache_hit_ratio"
    = Ok (JNumberFloat S754_nan).
Proof.
  split; [by split |].
  exact (proj1 (cache_hit_ratio_without_requests Examples.fresh_client
                  eq_refl eq_refl)).
Defined.

(** ** The scenarios of the specification, run *)

(** An empty cache: one miss, one fetch, the entry cached; the same call
    again, at once: one hit and no transfer. *)
Example scenario_first_and_second_fetch :
  let first := fetch_schema Examples.parse (Examples.registry Examples.ticks_body)
                 0 Examples.fresh_client "ticks_v1" "" in
  let second := fetch_schema Examples.parse (Examples.registry Examples.ticks_body)
                  0 (client first) "ticks_v1" "" in
  (cache_hits_ (client first), cache_misses_ (client first),
   schema_fetches_ (client first), length (transfers first)) = (0, 1, 1, 1%nat)
  ∧ (cache_hits_ (client second), cache_misses_ (client second),
     schema_fetches_ (client second), length (transfers second))
    = (1, 1, 1, 0%nat)
  ∧ returned second = Ok Examples.ticks_document.
Proof. by vm_compute. Qed.

(** An entry inserted at 0: the sweep at 599 s leaves it, the sweep at
    601 s removes it, and a lookup at 601 s that comes before the sweep
    goes to the registry. *)
Example scenario_sweep_around_ttl :
  schema_cache_ (sweep_expired (seconds 599) Examples.warm_client) !! "ticks_v1"
  = Some Examples.ticks_document
  ∧ schema_cache_ (sweep_expired (seconds 601) Examples.warm_client) !! "ticks_v1"
    = None
  ∧ cache_timestamps_ (sweep_expired (seconds 601) Examples.warm_client)
      !! "ticks_v1" = None
  ∧ length (transfers (fetch_schema Examples.parse (Examples.registry "{}")
                         (seconds 601) Examples.warm_client "ticks_v1" ""))
    = 1%nat.
Proof. by vm_compute. Qed.


(** * Further properties of the code *)

(** ** Keys and requests *)

Lemma append_assoc (s t u : string) : (s +:+ t) +:+ u = s +:+ (t +:+ u).
Proof.
  induction s as [|a s IH]; [reflexivity |].
  change (String a ((s +:+ t) +:+ u) = String a (s +:+ (t +:+ u))).
  by rewrite IH.
Qed.

Lemma append_inv_head (s t u : string) : s +:+ t = s +:+ u → t = u.
Proof.
  induction s as [|a s IH]; intros H; [exact H |].
  change (String a (s +:+ t) = String a (s +:+ u)) in H.
  injection H as H. by apply IH.
Qed.

(** For one identifier, two versions with the same key are the same
    version (no version being the empty one). *)
Theorem cache_key_version_injective schema_id version version' :
  cache_key schema_id version = cache_key schema_id version' →
  version = version'.
Proof.
  unfold cache_key. intros H%append_inv_head.
  destruct version as [|a v], version' as [|a' v']; cbn in H; try done.
  by injection H as -> ->.
Qed.

Lemma cache_key_version_injective_witness :
  cache_key "ticks" "v2" = cache_key "ticks" "v2" ∧ "v2" = "v2".
Proof.
  split; [reflexivity |].
  exact (cache_key_version_injective "ticks" "v2" "v2" eq_refl).
Defined.

(** The pair (id, version) and the pair (id:version, no version) have
    one cache key and two URLs: the cache answers for one resource with
    the document of the other. *)
Theorem colliding_keys_have_different_urls c schema_id version :
  version ≠ "" →
  cache_key (schema_id +:+ ":" +:+ version) "" = cache_key schema_id version
  ∧ CURLOPT_URL (registry_request c (schema_id +:+ ":" +:+ version) "")
    ≠ CURLOPT_URL (registry_request c schema_id version).
Proof.
  intros Hv. destruct version as [|a v]; [done |]. split.
  - unfold cache_key. cbn [empty]. by rewrite append_empty_r.
  - unfold registry_request. cbn [empty negb CURLOPT_URL].
    rewrite !append_assoc. intros H.
    do 3 apply append_inv_head in H. discriminate H.
Qed.

Lemma colliding_keys_have_different_urls_witness :
  "b" ≠ ""
  ∧ cache_key ("a" +:+ ":" +:+ "b") "" = cache_key "a" "b"
  ∧ CURLOPT_URL (registry_request Examples.fresh_client ("a" +:+ ":" +:+ "b") "")
    ≠ CURLOPT_URL (registry_request Examples.fresh_client "a" "b").
Proof.
  assert ("b" ≠ "") as Hv by discriminate.
  split; [exact Hv |].
  exact (colliding_keys_have_different_urls Examples.fresh_client "a" "b" Hv).
Defined.

(** ** What a lookup does to the cache *)

Section FetchSchemaMaps.

Variable json_parse : string → result json.
Variable curl : libcurl.

(** The path through the registry either fails and leaves the maps, or
    returns a document and writes it and [now] under the key. *)
Lemma fetch_from_registry_maps now c schema_id version :
  let out := fetch_from_registry json_parse curl now c schema_id version in
  ((∃ e, returned out = Throw e)
   ∧ schema_cache_ (client out) = schema_cache_ c
   ∧ cache_timestamps_ (client out) = cache_timestamps_ c)
  ∨ (∃ document,
        returned out = Ok document
        ∧ schema_cache_ (client out)
          = <[cache_key schema_id version := document]> (schema_cache_ c)
        ∧ cache_timestamps_ (client out)
          = <[cache_key schema_id version := now]> (cache_timestamps_ c)).
Proof.
  intros out. destruct (returned out) as [document|e] eqn:Hret.
  - right. exists document. split; [done |].
    by apply fetch_from_registry_Ok.
  - left. split; [by exists e |].
    destruct (fetch_from_registry_failure json_parse curl now c schema_id
                version e Hret) as [Hclient _].
    subst out. by rewrite Hclient.
Qed.

Lemma fetch_from_registry_configuration now c schema_id version :
  let out := fetch_from_registry json_parse curl now c schema_id version in
  base_url_ (client out) = base_url_ c
  ∧ auth_token_ (client out) = auth_token_ c.
Proof.
  unfold fetch_from_registry. cbv zeta.
  repeat (case_match; cbn; try done).
Qed.

Lemma fetch_schema_configuration now c schema_id version :
  let out := fetch_schema json_parse curl now c schema_id version in
  base_url_ (client out) = base_url_ c
  ∧ auth_token_ (client out) = auth_token_ c.
Proof.
  unfold fetch_schema. cbv zeta.
  destruct (schema_cache_ c !! cache_key schema_id version); [|
    apply fetch_from_registry_configuration].
  destruct (timestamps_at _ _) as [cache_time timestamps].
  case_match; [done |].
  apply (fetch_from_registry_configuration now
           (set_cache_timestamps_ timestamps c)).
Qed.

Lemma fetch_schema_counters_agree now c schema_id version :
  cache_misses_ c = schema_fetches_ c →
  let out := fetch_schema json_parse curl now c schema_id version in
  cache_misses_ (client out) = schema_fetches_ (client out).
Proof.
  intros Hagree. unfold fetch_schema. cbv zeta.
  assert (∀ c', cache_misses_ c' = schema_fetches_ c' →
                cache_misses_ (client (fetch_from_registry json_parse curl now
                                         c' schema_id version))
                = schema_fetches_ (client (fetch_from_registry json_parse curl
                                             now c' schema_id version)))
    as Hregistry.
  { intros c' Hc'.
    destruct (fetch_from_registry_counters json_parse curl now c' schema_id
                version) as (_ & -> & ->). by rewrite Hc'. }
  destruct (schema_cache_ c !! cache_key schema_id version); [| by apply Hregistry].
  destruct (timestamps_at _ _) as [cache_time timestamps].
  case_match; [done |]. by apply Hregistry.
Qed.

Lemma paired_stamped c : paired c → stamped c.
Proof. intros Hp key. apply Hp. Qed.

Lemma fetch_schema_paired now c schema_id version :
  paired c →
  paired (client (fetch_schema json_parse curl now c schema_id version)).
Proof.
  intros Hp.
  destruct (fetch_schema_cases json_parse curl now c schema_id version
              (paired_stamped c Hp)) as [(d & t & _ & _ & _ & ->)|[_ ->]];
    [exact Hp |].
  destruct (fetch_from_registry_maps now c schema_id version)
    as [(_ & Hc & Ht)|(d & _ & Hc & Ht)]; intros key; rewrite Hc, Ht.
  - apply Hp.
  - destruct (decide (cache_key schema_id version = key)) as [->|Hne].
    + rewrite !lookup_insert_eq. split; eauto.
    + rewrite !lookup_insert_ne by done. apply Hp.
Qed.

End FetchSchemaMaps.

Lemma sweep_expired_configuration now c :
  base_url_ (sweep_expired now c) = base_url_ c
  ∧ auth_token_ (sweep_expired now c) = auth_token_ c.
Proof.
  unfold sweep_expired. generalize (expired_keys now (cache_timestamps_ c)).
  intros keys. revert c. induction keys as [|k keys IH]; intros c; [done |].
  cbn [foldl]. destruct (IH (erase_key c k)) as [-> ->]. done.
Qed.

Lemma sweep_expired_paired now c : paired c → paired (sweep_expired now c).
Proof.
  intros Hp key. rewrite sweep_expired_cache, sweep_expired_timestamps.
  pose proof (Hp key) as Hkey.
  destruct (cache_timestamps_ c !! key) as [t|] eqn:Ht.
  - destruct (decide (now - t > cache_ttl_)); [done | exact Hkey].
  - exact Hkey.
Qed.

(** Whatever calls a client has served since its construction, lookups
    and sweeps in any order and with any answers of the registry: the
    two maps of the cache hold the same keys, the count of fetches is the
    count of misses, and the URL and the token are those it was built
    with. *)
Theorem client_invariants base_url auth_token calls :
  let c := run_calls calls (new_client base_url auth_token) in
  paired c
  ∧ cache_misses_ c = schema_fetches_ c
  ∧ base_url_ c = base_url
  ∧ auth_token_ c = auth_token.
Proof.
  unfold run_calls.
  assert (∀ c, paired c ∧ cache_misses_ c = schema_fetches_ c
               ∧ base_url_ c = base_url ∧ auth_token_ c = auth_token →
               paired (foldl run_call c calls)
               ∧ cache_misses_ (foldl run_call c calls)
                 = schema_fetches_ (foldl run_call c calls)
               ∧ base_url_ (foldl run_call c calls) = base_url
               ∧ auth_token_ (foldl run_call c calls) = auth_token) as Hrun.
  { induction calls as [|call calls IH]; intros c Hc; [exact Hc |].
    cbn [foldl]. apply IH. destruct Hc as (Hp & Hm & Hb & Ha).
    destruct call as [json_parse curl now schema_id version|now]; cbn.
    - destruct (fetch_schema_configuration json_parse curl now c schema_id
                  version) as [-> ->].
      repeat split; try done.
      + by apply fetch_schema_paired.
      + by apply fetch_schema_paired.
      + by apply fetch_schema_counters_agree.
    - destruct (sweep_expired_configuration now c) as [-> ->].
      destruct (foldl_erase_key_counters
                  (expired_keys now (cache_timestamps_ c)) c) as (_ & Hm' & Hf').
      change (foldl erase_key c (expired_keys now (cache_timestamps_ c)))
        with (sweep_expired now c) in Hm', Hf'.
      rewrite Hm', Hf'.
      repeat split; try done; by apply sweep_expired_paired. }
  apply Hrun. repeat split; try done; cbn; intros [x Hx];
    by rewrite lookup_empty in Hx.
Qed.

Section FetchSchemaFrame.

Variable json_parse : string → result json.
Variable curl : libcurl.

(** A lookup touches no key but its own: under every other key both maps
    hold after the call what they held before, hit or miss, success or
    failure. *)
Theorem fetch_schema_other_keys now c schema_id version key :
  key ≠ cache_key schema_id version →
  let out := fetch_schema json_parse curl now c schema_id version in
  schema_cache_ (client out) !! key = schema_cache_ c !! key
  ∧ cache_timestamps_ (client out) !! key = cache_timestamps_ c !! key.
Proof.
  intros Hne out. subst out.
  assert (∀ c',
            schema_cache_ (client (fetch_from_registry json_parse curl now c'
                                     schema_id version)) !! key
            = schema_cache_ c' !! key
            ∧ cache_timestamps_ (client (fetch_from_registry json_parse curl now
                                           c' schema_id version)) !! key
              = cache_timestamps_ c' !! key) as Hregistry.
  { intros c'.
    destruct (fetch_from_registry_maps json_parse curl now c' schema_id version)
      as [(_ & -> & ->)|(d & _ & -> & ->)]; [done |].
    by rewrite !lookup_insert_ne. }
  unfold fetch_schema. cbv zeta.
  destruct (schema_cache_ c !! cache_key schema_id version) as [cached|];
    [| apply Hregistry].
  assert (∀ cache_time timestamps,
            timestamps_at (cache_timestamps_ c) (cache_key schema_id version)
            = (cache_time, timestamps) →
            timestamps !! key = cache_timestamps_ c !! key) as Hat.
  { unfold timestamps_at. intros cache_time timestamps.
    destruct (cache_timestamps_ c !! cache_key schema_id version).
    - by intros [= _ <-].
    - intros [= _ <-]. by rewrite lookup_insert_ne. }
  destruct (timestamps_at _ _) as [cache_time timestamps] eqn:Hts.
  specialize (Hat _ _ eq_refl).
  case_match; cbn.
  - done.
  - destruct (Hregistry (set_cache_timestamps_ timestamps c)) as [-> ->]. done.
Qed.

(** A lookup adds at most one entry and never a second one for a key:
    the cache has one entry more after a document was fetched for a key
    it did not hold, and as many as before in every other case. *)
Theorem fetch_schema_cache_size now c schema_id version :
  let out := fetch_schema json_parse curl now c schema_id version in
  let key := cache_key schema_id version in
  (schema_cache_ c !! key = None →
   size (schema_cache_ (client out))
   = if is_Ok (returned out) then S (size (schema_cache_ c))
     else size (schema_cache_ c))
  ∧ (is_Some (schema_cache_ c !! key) →
     size (schema_cache_ (client out)) = size (schema_cache_ c)).
Proof.
  intros out key. subst out key.
  assert (∀ c', schema_cache_ c' = schema_cache_ c →
            let out := fetch_from_registry json_parse curl now c' schema_id
                         version in
            size (schema_cache_ (client out))
            = match schema_cache_ c !! cache_key schema_id version with
              | Some _ => size (schema_cache_ c)
              | None => if is_Ok (returned out) then S (size (schema_cache_ c))
                        else size (schema_cache_ c)
              end) as Hregistry.
  { intros c' Hsame out.
    destruct (fetch_from_registry_maps json_parse curl now c' schema_id version)
      as [([e He] & Hc & _)|(d & Hd & Hc & _)]; fold out in He || fold out in Hd;
      fold out in Hc; rewrite Hc, Hsame.
    - rewrite He. cbn. by case_match.
    - rewrite Hd, map_size_insert. cbn. by case_match. }
  unfold fetch_schema. cbv zeta.
  destruct (schema_cache_ c !! cache_key schema_id version) as [cached|] eqn:Hk.
  - split; [done |]. intros _.
    destruct (timestamps_at _ _) as [cache_time timestamps].
    case_match; [done |].
    by rewrite (Hregistry (set_cache_timestamps_ timestamps c) eq_refl).
  - split; [| by intros [? ?]]. intros _.
    by rewrite (Hregistry c eq_refl).
Qed.

End FetchSchemaFrame.

Lemma fetch_schema_other_keys_witness :
  "other" ≠ cache_key "ticks_v1" ""
  ∧ schema_cache_ (client (fetch_schema Examples.parse
                             (Examples.registry Examples.ticks_body) 0
                             Examples.fresh_client "ticks_v1" "")) !! "other"
    = schema_cache_ Examples.fresh_client !! "other".
Proof.
  assert ("other" ≠ cache_key "ticks_v1" "") as Hne by discriminate.
  split; [exact Hne |].
  exact (proj1 (fetch_schema_other_keys Examples.parse
                  (Examples.registry Examples.ticks_body) 0
                  Examples.fresh_client "ticks_v1" "" "other" Hne)).
Defined.

Lemma fetch_schema_cache_size_witness :
  schema_cache_ Examples.fresh_client !! cache_key "ticks_v1" "" = None
  ∧ size (schema_cache_ Examples.warm_client) = 1%nat.
Proof.
  assert (schema_cache_ Examples.fresh_client !! cache_key "ticks_v1" "" = None)
    as Hnone by reflexivity.
  split; [exact Hnone |].
  exact (proj1 (fetch_schema_cache_size Examples.parse
                  (Examples.registry Examples.ticks_body) 0
                  Examples.fresh_client "ticks_v1" "") Hnone).
Defined.

(** ** What the sweeps do *)

Lemma client_eq (c c' : SchemaRegistryClient) :
  base_url_ c = base_url_ c' →
  auth_token_ c = auth_token_ c' →
  schema_cache_ c = schema_cache_ c' →
  cache_timestamps_ c = cache_timestamps_ c' →
  cache_hits_ c = cache_hits_ c' →
  cache_misses_ c = cache_misses_ c' →
  schema_fetches_ c = schema_fetches_ c' →
  c = c'.
Proof. destruct c, c'. cbn. by intros -> -> -> -> -> -> ->. Qed.

Lemma sweep_expired_counters now c :
  cache_hits_ (sweep_expired now c) = cache_hits_ c
  ∧ cache_misses_ (sweep_expired now c) = cache_misses_ c
  ∧ schema_fetches_ (sweep_expired now c) = schema_fetches_ c.
Proof. apply foldl_erase_key_counters. Qed.

(** A sweep removes the entries older than the TTL and no other: a key
    is in the cache afterwards exactly when it was there with an age of
    at most the TTL, and then with its document and time stamp. *)
Theorem sweep_expired_exact now c key :
  paired c →
  (is_Some (schema_cache_ (sweep_expired now c) !! key)
   ↔ ∃ fetched_at, is_Some (schema_cache_ c !! key)
                   ∧ cache_timestamps_ c !! key = Some fetched_at
                   ∧ now - fetched_at ≤ cache_ttl_)
  ∧ (∀ document,
        schema_cache_ (sweep_expired now c) !! key = Some document →
        schema_cache_ c !! key = Some document)
  ∧ (∀ fetched_at,
        cache_timestamps_ (sweep_expired now c) !! key = Some fetched_at →
        cache_timestamps_ c !! key = Some fetched_at)
  ∧ paired (sweep_expired now c).
Proof.
  intros Hp. pose proof (Hp key) as Hkey.
  split; [| split; [| split; [| by apply sweep_expired_paired]]].
  - rewrite sweep_expired_cache.
    destruct (cache_timestamps_ c !! key) as [t|] eqn:Ht.
    + destruct (decide (now - t > cache_ttl_)) as [Hage|Hage]; split.
      * by intros [? ?].
      * intros (t' & _ & [= <-] & Hle). lia.
      * intros Hsome. exists t. split; [done |]. split; [done | lia].
      * by intros (t' & Hsome & _).
    + split.
      * intros Hsome. apply Hkey in Hsome. by destruct Hsome.
      * by intros (t' & _ & [=] & _).
  - intros document. rewrite sweep_expired_cache.
    destruct (cache_timestamps_ c !! key) as [t|]; [| done].
    by destruct (decide (now - t > cache_ttl_)).
  - intros fetched_at. rewrite sweep_expired_timestamps.
    destruct (cache_timestamps_ c !! key) as [t|]; [| done].
    by destruct (decide (now - t > cache_ttl_)).
Qed.

Lemma new_client_paired base_url auth_token :
  paired (new_client base_url auth_token).
Proof. intros key. cbn. rewrite !lookup_empty. split; by intros [? ?]. Qed.

Lemma sweep_expired_exact_witness :
  paired Examples.warm_client
  ∧ (is_Some (schema_cache_ (sweep_expired (seconds 600) Examples.warm_client)
                !! "ticks_v1")
     ↔ ∃ fetched_at,
         is_Some (schema_cache_ Examples.warm_client !! "ticks_v1")
         ∧ cache_timestamps_ Examples.warm_client !! "ticks_v1" = Some fetched_at
         ∧ seconds 600 - fetched_at ≤ cache_ttl_).
Proof.
  assert (paired Examples.warm_client) as Hp.
  { apply fetch_schema_paired, new_client_paired. }
  split; [exact Hp |].
  exact (proj1 (sweep_expired_exact (seconds 600) Examples.warm_client
                  "ticks_v1" Hp)).
Defined.

Lemma sweep_expired_after_sweep now now' c :
  now ≤ now' →
  sweep_expired now' (sweep_expired now c) = sweep_expired now' c.
Proof.
  intros Hle.
  destruct (sweep_expired_configuration now c) as [Hb Ha].
  destruct (sweep_expired_counters now c) as (Hh & Hm & Hf).
  apply client_eq.
  - destruct (sweep_expired_configuration now' (sweep_expired now c)) as [-> _].
    destruct (sweep_expired_configuration now' c) as [-> _]. done.
  - destruct (sweep_expired_configuration now' (sweep_expired now c)) as [_ ->].
    destruct (sweep_expired_configuration now' c) as [_ ->]. done.
  - apply map_eq. intros key.
    rewrite !sweep_expired_cache, sweep_expired_timestamps.
    destruct (cache_timestamps_ c !! key) as [t|]; [| done].
    destruct (decide (now - t > cache_ttl_)) as [Hold|Hold].
    + rewrite decide_True by lia. done.
    + by destruct (decide (now' - t > cache_ttl_)).
  - apply map_eq. intros key. rewrite !sweep_expired_timestamps.
    destruct (cache_timestamps_ c !! key) as [t|]; [| done].
    destruct (decide (now - t > cache_ttl_)) as [Hold|Hold].
    + rewrite decide_True by lia. done.
    + done.
  - destruct (sweep_expired_counters now' (sweep_expired now c)) as (-> & _ & _).
    destruct (sweep_expired_counters now' c) as (-> & _ & _). done.
  - destruct (sweep_expired_counters now' (sweep_expired now c)) as (_ & -> & _).
    destruct (sweep_expired_counters now' c) as (_ & -> & _). done.
  - destruct (sweep_expired_counters now' (sweep_expired now c)) as (_ & _ & ->).
    destruct (sweep_expired_counters now' c) as (_ & _ & ->). done.
Qed.

(** A sweep after a sweep: with clock readings that do not go back, the
    second sweep alone gives the same client; in particular a sweep done
    twice is a sweep done once. *)
Theorem sweep_expired_twice now now' c :
  now ≤ now' →
  sweep_expired now' (sweep_expired now c) = sweep_expired now' c.
Proof. apply sweep_expired_after_sweep. Qed.

Lemma sweep_expired_twice_witness :
  seconds 30 ≤ seconds 660
  ∧ sweep_expired (seconds 660) (sweep_expired (seconds 30) Examples.warm_client)
    = sweep_expired (seconds 660) Examples.warm_client.
Proof.
  assert (seconds 30 ≤ seconds 660) as Hle by (by vm_compute).
  split; [exact Hle |].
  exact (sweep_expired_twice (seconds 30) (seconds 660) Examples.warm_client Hle).
Defined.

(** The thread over its life: with a clock that does not go back, all
    its rounds together leave the client the last round alone would
    leave. *)
Theorem monitor_schema_updates_last readings final c :
  Sorted Z.le readings →
  last readings = Some final →
  monitor_schema_updates readings c = sweep_expired final c.
Proof.
  unfold monitor_schema_updates.
  destruct readings as [|now readings]; [done |].
  revert now c. induction readings as [|now' readings IH]; intros now c Hs Hl.
  - cbn in *. by injection Hl as ->.
  - cbn [foldl]. apply Sorted_inv in Hs as [Hs Hhd].
    apply HdRel_inv in Hhd.
    rewrite sweep_expired_after_sweep by done.
    by apply (IH now' c).
Qed.

Lemma monitor_schema_updates_last_witness :
  (Sorted Z.le [seconds 30; seconds 60; seconds 630]
   ∧ last [seconds 30; seconds 60; seconds 630] = Some (seconds 630))
  ∧ monitor_schema_updates [seconds 30; seconds 60; seconds 630]
      Examples.warm_client
    = sweep_expired (seconds 630) Examples.warm_client.
Proof.
  assert (Sorted Z.le [seconds 30; seconds 60; seconds 630]) as Hs.
  { repeat constructor; by vm_compute. }
  split; [by split |].
  exact (monitor_schema_updates_last _ (seconds 630) Examples.warm_client
           Hs eq_refl).
Defined.

(** A sweep changes no counter and never adds an entry, so of the
    statistics only the size of the cache can change, and only go down. *)
Theorem sweep_expired_statistics now c :
  cache_hits_ (sweep_expired now c) = cache_hits_ c
  ∧ cache_misses_ (sweep_expired now c) = cache_misses_ c
  ∧ schema_fetches_ (sweep_expired now c) = schema_fetches_ c
  ∧ (size (schema_cache_ (sweep_expired now c)) ≤ size (schema_cache_ c))%nat.
Proof.
  destruct (sweep_expired_counters now c) as (-> & -> & ->).
  repeat split. apply map_subseteq_size, map_subseteq_spec.
  intros key document. rewrite sweep_expired_cache.
  destruct (cache_timestamps_ c !! key) as [t|]; [| done].
  by destruct (decide (now - t > cache_ttl_)).
Qed.

Section SweepAndLookup.

Variable json_parse : string → result json.
Variable curl : libcurl.

(** What the path through the registry returns and asks for depends on
    the client through its URL and token only. *)
Lemma fetch_from_registry_answer now c c' schema_id version :
  base_url_ c = base_url_ c' →
  auth_token_ c = auth_token_ c' →
  returned (fetch_from_registry json_parse curl now c schema_id version)
  = returned (fetch_from_registry json_parse curl now c' schema_id version)
  ∧ transfers (fetch_from_registry json_parse curl now c schema_id version)
    = transfers (fetch_from_registry json_parse curl now c' schema_id version).
Proof.
  intros Hb Ha.
  assert (registry_request c schema_id version
          = registry_request c' schema_id version) as Hreq.
  { unfold registry_request. by rewrite Hb, Ha. }
  unfold fetch_from_registry. cbv zeta. rewrite Hreq.
  repeat (case_match; cbn; try done).
Qed.

(** The sweep is invisible to the callers of fetch_schema: a lookup that
    comes after a sweep returns and requests what it would have returned
    and requested had the sweep not run. *)
Theorem sweep_expired_invisible now now' c schema_id version :
  stamped c →
  now ≤ now' →
  returned (fetch_schema json_parse curl now' (sweep_expired now c)
              schema_id version)
  = returned (fetch_schema json_parse curl now' c schema_id version)
  ∧ transfers (fetch_schema json_parse curl now' (sweep_expired now c)
                 schema_id version)
    = transfers (fetch_schema json_parse curl now' c schema_id version).
Proof.
  intros Hst Hle.
  destruct (sweep_expired_configuration now c) as [Hb Ha].
  pose proof (fetch_from_registry_answer now' (sweep_expired now c) c
                schema_id version Hb Ha) as Hanswer.
  pose proof (sweep_expired_cache now c (cache_key schema_id version)) as Hc.
  pose proof (sweep_expired_timestamps now c (cache_key schema_id version)) as Ht.
  destruct (schema_cache_ c !! cache_key schema_id version) as [d|] eqn:Hd.
  - destruct (Hst (cache_key schema_id version)) as [t Hts]; [by rewrite Hd |].
    rewrite Hts in Hc, Ht.
    destruct (decide (now - t > cache_ttl_)) as [Hold|Hold].
    + rewrite (fetch_schema_absent _ _ _ _ _ _ Hc).
      rewrite (fetch_schema_stale _ _ now' c _ _ d t) by (done || lia).
      exact Hanswer.
    + destruct (Z.lt_ge_cases (now' - t) cache_ttl_) as [Hage|Hage].
      * rewrite (fetch_schema_fresh _ _ now' (sweep_expired now c) _ _ d t)
          by done.
        by rewrite (fetch_schema_fresh _ _ now' c _ _ d t).
      * rewrite (fetch_schema_stale _ _ now' (sweep_expired now c) _ _ d t)
          by done.
        by rewrite (fetch_schema_stale _ _ now' c _ _ d t).
  - assert (schema_cache_ (sweep_expired now c) !! cache_key schema_id version
            = None) as Hnone.
    { rewrite Hc. destruct (cache_timestamps_ c !! _) as [t|]; [| done].
      by destruct (decide (now - t > cache_ttl_)). }
    rewrite (fetch_schema_absent _ _ _ _ _ _ Hnone).
    by rewrite (fetch_schema_absent _ _ _ c).
Qed.

End SweepAndLookup.

Lemma sweep_expired_invisible_witness :
  (stamped Examples.warm_client ∧ seconds 630 ≤ seconds 640)
  ∧ returned (fetch_schema Examples.parse (Examples.registry "{}") (seconds 640)
                (sweep_expired (seconds 630) Examples.warm_client) "ticks_v1" "")
    = returned (fetch_schema Examples.parse (Examples.registry "{}") (seconds 640)
                  Examples.warm_client "ticks_v1" "").
Proof.
  assert (stamped Examples.warm_client) as Hst.
  { apply fetch_schema_stamped, new_client_stamped. }
  assert (seconds 630 ≤ seconds 640) as Hle by (by vm_compute).
  split; [by split |].
  exact (proj1 (sweep_expired_invisible Examples.parse (Examples.registry "{}")
                  (seconds 630) (seconds 640) Examples.warm_client
                  "ticks_v1" "" Hst Hle)).
Defined.

(** ** More of the translation *)

Lemma find_emplace_ne key k v members :
  key ≠ k → Json.find key (Json.emplace k v members) = Json.find key members.
Proof.
  intros Hne. induction members as [|[k0 v0] members IH]; cbn.
  - by rewrite (proj2 (String.eqb_neq key k) Hne).
  - destruct (String.compare k k0); cbn.
    + done.
    + by rewrite (proj2 (String.eqb_neq key k) Hne).
    + by rewrite IH.
Qed.

(** Of an object the translation reads the members [arrow] and
    [properties] and nothing else. *)
Lemma create_arrow_schema_same_sources members members' :
  Json.find "arrow" members = Json.find "arrow" members' →
  Json.find "properties" members = Json.find "properties" members' →
  create_arrow_schema (JObject members) = create_arrow_schema (JObject members').
Proof.
  intros Harrow Hprops. unfold create_arrow_schema.
  rewrite !has_arrow_fields_object. cbn. by rewrite Harrow, Hprops.
Qed.

(** When the document has no [arrow.fields] (no [arrow] member, one that
    is not an object, or one without [fields]) it translates as the
    document that holds its [properties] member alone. *)
Theorem create_arrow_schema_without_native members properties :
  (∀ arrow, Json.find "arrow" members = Some arrow →
            Json.contains arrow "fields" = false) →
  Json.find "properties" members = Some properties →
  create_arrow_schema (JObject members)
  = create_arrow_schema (JObject [("properties", properties)]).
Proof.
  intros Harrow Hprops. unfold create_arrow_schema.
  rewrite !has_arrow_fields_object. cbn. rewrite Hprops.
  destruct (Json.find "arrow" members) as [arrow|]; [| done].
  by rewrite (Harrow arrow eq_refl).
Qed.

Lemma create_arrow_schema_without_native_witness :
  ((∀ arrow, Json.find "arrow" [("arrow", JArray []);
                                ("properties", JObject TranslationExamples.properties)]
             = Some arrow →
             Json.contains arrow "fields" = false)
   ∧ Json.find "properties" [("arrow", JArray []);
                             ("properties", JObject TranslationExamples.properties)]
     = Some (JObject TranslationExamples.properties))
  ∧ create_arrow_schema
      (JObject [("arrow", JArray []);
                ("properties", JObject TranslationExamples.properties)])
    = create_arrow_schema (JObject TranslationExamples.generic).
Proof.
  assert (∀ arrow, Json.find "arrow"
                     [("arrow", JArray []);
                      ("properties", JObject TranslationExamples.properties)]
                   = Some arrow →
                   Json.contains arrow "fields" = false) as Harrow.
  { intros arrow [= <-]. reflexivity. }
  split; [by split |].
  exact (create_arrow_schema_without_native _ _ Harrow eq_refl).
Defined.

(** A [properties] member that is not an object: null and the empty
    array give the empty schema, every other value (an array with
    elements, a string, a number, a boolean) fails at the first
    [it.key()] with invalid_iterator 207. *)
Theorem create_arrow_schema_properties_not_object members properties :
  has_arrow_fields (JObject members) = Ok false →
  Json.find "properties" members = Some properties →
  (∀ property_members, properties ≠ JObject property_members) →
  create_arrow_schema (JObject members)
  = match properties with
    | JNull | JArray [] => Ok []
    | _ => Throw (invalid_iterator 207)
    end.
Proof.
  intros Hno Hprops Hobject.
  rewrite (create_arrow_schema_properties _ Hno). cbn. rewrite Hprops. cbn.
  destruct properties as [|pm|[|element elements]| | | | |]; try done.
  by destruct (Hobject pm).
Qed.

Lemma create_arrow_schema_properties_not_object_witness :
  (has_arrow_fields (JObject [("properties", JArray [JString "qty"])]) = Ok false
   ∧ Json.find "properties" [("properties", JArray [JString "qty"])]
     = Some (JArray [JString "qty"])
   ∧ ∀ property_members, JArray [JString "qty"] ≠ JObject property_members)
  ∧ create_arrow_schema (JObject [("properties", JArray [JString "qty"])])
    = Throw (invalid_iterator 207).
Proof.
  assert (∀ property_members, JArray [JString "qty"] ≠ JObject property_members)
    as Hobject by discriminate.
  split; [by repeat split |].
  exact (create_arrow_schema_properties_not_object
           [("properties", JArray [JString "qty"])] (JArray [JString "qty"])
           eq_refl eq_refl Hobject).
Defined.

(** The type names int32, int64, float32, float64 and utf8 of the native
    list give the type of that name, whatever else the type object holds:
    its [unit] member is not read, not even when it is not a string. *)
Theorem native_type_table it entry_members field_name type_members type_name
    arrow_type :
  Json.it_value it = JObject entry_members →
  Json.find "name" entry_members = Some (JString field_name) →
  Json.find "type" entry_members = Some (JObject type_members) →
  Json.find "name" type_members = Some (JString type_name) →
  (type_name, arrow_type)
  ∈ [("int32", int32); ("int64", int64); ("float32", float32);
     ("float64", float64); ("utf8", utf8)] →
  native_field it = Ok {| name := field_name; type := arrow_type |}.
Proof.
  intros Hit Hname Htype Htn Hin.
  rewrite (native_field_Ok it entry_members field_name type_members type_name)
    by done.
  repeat (apply elem_of_cons in Hin as [[= -> ->]|Hin]; [reflexivity |]).
  by apply elem_of_nil in Hin.
Qed.

Lemma native_type_table_witness :
  (("int32", int32)
   ∈ [("int32", int32); ("int64", int64); ("float32", float32);
      ("float64", float64); ("utf8", utf8)])
  ∧ native_field
      (None, JObject [("name", JString "n");
                      ("type", JObject [("name", JString "int32");
                                        ("unit", JNumberInteger 7)])])
    = Ok {| name := "n"; type := int32 |}.
Proof.
  assert (("int32", int32)
          ∈ [("int32", int32); ("int64", int64); ("float32", float32);
             ("float64", float64); ("utf8", utf8)]) as Hin by (by left).
  split; [exact Hin |].
  exact (native_type_table
           (None, JObject [("name", JString "n");
                           ("type", JObject [("name", JString "int32");
                                             ("unit", JNumberInteger 7)])])
           _ "n" _ "int32" int32 eq_refl eq_refl eq_refl eq_refl Hin).
Defined.

Lemma title_lookup_keeps_translation_aux members title schema_json :
  Json.at_mut (JObject members) "title" = Ok (title, schema_json) →
  create_arrow_schema schema_json = create_arrow_schema (JObject members).
Proof.
  cbn. destruct (Json.find "title" members); intros [= _ <-]; [done |].
  apply create_arrow_schema_same_sources; by apply find_emplace_ne.
Qed.

(** Line 292 reads [schema_json["title"]] before the document is
    translated, which adds a null title to an object that has none: the
    translation of the object is the same with and without it. *)
Theorem title_lookup_keeps_translation members title schema_json :
  Json.at_mut (JObject members) "title" = Ok (title, schema_json) →
  create_arrow_schema schema_json = create_arrow_schema (JObject members).
Proof. apply title_lookup_keeps_translation_aux. Qed.

Lemma title_lookup_keeps_translation_witness :
  Json.at_mut (JObject TranslationExamples.generic) "title"
  = Ok (JNull, JObject [("properties", JObject TranslationExamples.properties);
                        ("title", JNull)])
  ∧ create_arrow_schema
      (JObject [("properties", JObject TranslationExamples.properties);
                ("title", JNull)])
    = create_arrow_schema (JObject TranslationExamples.generic).
Proof.
  split; [reflexivity |].
  exact (title_lookup_keeps_translation TranslationExamples.generic JNull _
           eq_refl).
Defined.

(** ** The tick store *)

Section LoadTickData.

Variable json_parse : string → result json.
Variable curl : libcurl.
Variables File Reader : Type.
Variable ReadableFile_Open : string → arrow_Result File.
Variable TableReader_Make : File → list Field → arrow_Result Reader.
Variable TableReader_Read : Reader → arrow_Result Table.

Local Abbreviation load :=
  (TickStore.load_tick_data json_parse curl File Reader
     ReadableFile_Open TableReader_Make TableReader_Read).
Local Abbreviation load_csv :=
  (TickStore.load_csv_with_arrow File Reader
     ReadableFile_Open TableReader_Make TableReader_Read).

(** When the lookup of the schema fails with an exception,
    load_tick_data returns false, and of the store only the counters of
    the client have changed: no Arrow schema is recorded, no tick is
    counted and the cache holds what it held. *)
Theorem load_tick_data_fetch_failure now s file_path schema_id version e :
  stamped (schema_client_ s) →
  returned (fetch_schema json_parse curl now (schema_client_ s)
              schema_id version) = Throw e →
  catchable e = true →
  let after := load now s file_path schema_id version in
  after.1 = Ok false
  ∧ arrow_schemas_ after.2 = arrow_schemas_ s
  ∧ processed_ticks_ after.2 = processed_ticks_ s
  ∧ schema_cache_ (schema_client_ after.2) = schema_cache_ (schema_client_ s)
  ∧ cache_timestamps_ (schema_client_ after.2)
    = cache_timestamps_ (schema_client_ s).
Proof.
  intros Hst Hthrow Hcatch after. subst after.
  unfold TickStore.load_tick_data. cbv zeta. rewrite Hthrow. cbn.
  rewrite Hcatch. cbn.
  destruct (fetch_schema_cases json_parse curl now (schema_client_ s)
              schema_id version Hst) as [(d & t & _ & _ & _ & Hhit)|[_ Heq]].
  { rewrite Hhit in Hthrow. discriminate. }
  rewrite Heq in *.
  destruct (fetch_from_registry_failure json_parse curl now (schema_client_ s)
              schema_id version e Hthrow) as [-> _].
  done.
Qed.

(** A document that is null (what fetch_schema returns for a body
    without a schema member) does not make load_tick_data return false:
    the title lookup turns it into an object, and the translation then
    reads a [properties] member that is not there, which the json
    library answers with a failed assertion, not with an exception the
    handler of line 315 could catch. *)
Theorem load_tick_data_null_document now s file_path schema_id version :
  returned (fetch_schema json_parse curl now (schema_client_ s)
              schema_id version) = Ok JNull →
  (load now s file_path schema_id version).1 = Throw assertion_failure
  ∧ create_arrow_schema JNull = Throw (type_error 305).
Proof.
  intros Hnull. unfold TickStore.load_tick_data. cbv zeta.
  rewrite Hnull. by cbn.
Qed.

(** A load that goes through: the translation of the fetched document is
    recorded under the schema identifier (the version is no part of that
    key), the rows of the table are added to the processed ticks, and
    true is returned. *)
Theorem load_tick_data_success now s file_path schema_id version
    members arrow_schema table :
  returned (fetch_schema json_parse curl now (schema_client_ s)
              schema_id version) = Ok (JObject members) →
  create_arrow_schema (JObject members) = Ok arrow_schema →
  load_csv file_path arrow_schema = arrow_ok table →
  let after := load now s file_path schema_id version in
  after.1 = Ok true
  ∧ arrow_schemas_ after.2 = <[schema_id := arrow_schema]> (arrow_schemas_ s)
  ∧ processed_ticks_ after.2 = int64_wrap (processed_ticks_ s + num_rows table)
  ∧ schema_client_ after.2
    = client (fetch_schema json_parse curl now (schema_client_ s)
                schema_id version).
Proof.
  intros Hdoc Hschema Hcsv after. subst after.
  unfold TickStore.load_tick_data. cbv zeta. rewrite Hdoc.
  cbn [mbind result_bind].
  destruct (Json.at_mut (JObject members) "title") as [[title doc']|e] eqn:Ht.
  2: { cbn in Ht. by destruct (Json.find "title" members). }
  cbn [mbind result_bind].
  rewrite (title_lookup_keeps_translation_aux members title doc' Ht).
  rewrite Hschema. cbn [mbind result_bind]. rewrite Hcsv. done.
Qed.

(** A load whose file cannot be read returns false and counts no tick,
    but the Arrow schema is recorded all the same: the store keeps a
    schema for data it did not load. *)
Theorem load_tick_data_csv_failure now s file_path schema_id version
    members arrow_schema status :
  returned (fetch_schema json_parse curl now (schema_client_ s)
              schema_id version) = Ok (JObject members) →
  create_arrow_schema (JObject members) = Ok arrow_schema →
  load_csv file_path arrow_schema = arrow_error status →
  let after := load now s file_path schema_id version in
  after.1 = Ok false
  ∧ arrow_schemas_ after.2 !! schema_id = Some arrow_schema
  ∧ processed_ticks_ after.2 = processed_ticks_ s.
Proof.
  intros Hdoc Hschema Hcsv after. subst after.
  unfold TickStore.load_tick_data. cbv zeta. rewrite Hdoc.
  cbn [mbind result_bind].
  destruct (Json.at_mut (JObject members) "title") as [[title doc']|e] eqn:Ht.
  2: { cbn in Ht. by destruct (Json.find "title" members). }
  cbn [mbind result_bind].
  rewrite (title_lookup_keeps_translation_aux members title doc' Ht).
  rewrite Hschema. cbn [mbind result_bind]. rewrite Hcsv. cbn.
  by rewrite lookup_insert_eq.
Qed.

End LoadTickData.

Lemma load_tick_data_fetch_failure_witness :
  (stamped (schema_client_ StoreExamples.store)
   ∧ returned (fetch_schema StoreExamples.parse (Examples.registry_status 404) 0
                 (schema_client_ StoreExamples.store) "ticks_v1" "")
     = Throw (runtime_error "HTTP request failed with code: 404")
   ∧ catchable (runtime_error "HTTP request failed with code: 404") = true)
  ∧ (TickStore.load_tick_data StoreExamples.parse (Examples.registry_status 404)
       string (list Field) StoreExamples.open_any StoreExamples.make_reader
       StoreExamples.read_three_rows 0 StoreExamples.store
       "data/ticks.csv" "ticks_v1" "").1
    = Ok false.
Proof.
  assert (stamped (schema_client_ StoreExamples.store)) as Hst
    by apply new_client_stamped.
  split; [by repeat split |].
  exact (proj1 (load_tick_data_fetch_failure StoreExamples.parse
                  (Examples.registry_status 404) string (list Field)
                  StoreExamples.open_any StoreExamples.make_reader
                  StoreExamples.read_three_rows 0 StoreExamples.store
                  "data/ticks.csv" "ticks_v1" "" _ Hst eq_refl eq_refl)).
Defined.

Lemma load_tick_data_null_document_witness :
  returned (fetch_schema StoreExamples.parse (Examples.registry "{}") 0
              (schema_client_ StoreExamples.store) "ticks_v1" "")
  = Ok JNull
  ∧ (TickStore.load_tick_data StoreExamples.parse (Examples.registry "{}")
       string (list Field) StoreExamples.open_any StoreExamples.make_reader
       StoreExamples.read_three_rows 0 StoreExamples.store
       "data/ticks.csv" "ticks_v1" "").1
    = Throw assertion_failure.
Proof.
  split; [reflexivity |].
  exact (proj1 (load_tick_data_null_document StoreExamples.parse
                  (Examples.registry "{}") string (list Field)
                  StoreExamples.open_any StoreExamples.make_reader
                  StoreExamples.read_three_rows 0 StoreExamples.store
                  "data/ticks.csv" "ticks_v1" "" eq_refl)).
Defined.

Lemma load_tick_data_success_witness :
  (returned (fetch_schema StoreExamples.parse
               (Examples.registry StoreExamples.columns_body) 0
               (schema_client_ StoreExamples.store) "ticks_v1" "")
   = Ok (JObject TranslationExamples.generic)
   ∧ create_arrow_schema (JObject TranslationExamples.generic)
     = Ok StoreExamples.columns
   ∧ TickStore.load_csv_with_arrow string (list Field) StoreExamples.open_any
       StoreExamples.make_reader StoreExamples.read_three_rows
       "data/ticks.csv" StoreExamples.columns
     = arrow_ok {| table_schema := StoreExamples.columns; num_rows := 3 |})
  ∧ (TickStore.load_tick_data StoreExamples.parse
       (Examples.registry StoreExamples.columns_body)
       string (list Field) StoreExamples.open_any StoreExamples.make_reader
       StoreExamples.read_three_rows 0 StoreExamples.store
       "data/ticks.csv" "ticks_v1" "").1
    = Ok true.
Proof.
  split; [by repeat split |].
  exact (proj1 (load_tick_data_success StoreExamples.parse
                  (Examples.registry StoreExamples.columns_body)
                  string (list Field) StoreExamples.open_any
                  StoreExamples.make_reader StoreExamples.read_three_rows
                  0 StoreExamples.store "data/ticks.csv" "ticks_v1" ""
                  TranslationExamples.generic StoreExamples.columns
                  {| table_schema := StoreExamples.columns; num_rows := 3 |}
                  eq_refl eq_refl eq_refl)).
Defined.

Lemma load_tick_data_csv_failure_witness :
  (returned (fetch_schema StoreExamples.parse
               (Examples.registry StoreExamples.columns_body) 0
               (schema_client_ StoreExamples.store) "ticks_v1" "")
   = Ok (JObject TranslationExamples.generic)
   ∧ create_arrow_schema (JObject TranslationExamples.generic)
     = Ok StoreExamples.columns
   ∧ TickStore.load_csv_with_arrow string (list Field) StoreExamples.open_none
       StoreExamples.make_reader StoreExamples.read_three_rows
       "data/ticks.csv" StoreExamples.columns
     = arrow_error "IOError: Failed to open local file")
  ∧ (TickStore.load_tick_data StoreExamples.parse
       (Examples.registry StoreExamples.columns_body)
       string (list Field) StoreExamples.open_none StoreExamples.make_reader
       StoreExamples.read_three_rows 0 StoreExamples.store
       "data/ticks.csv" "ticks_v1" "").1
    = Ok false.
Proof.
  split; [by repeat split |].
  exact (proj1 (load_tick_data_csv_failure StoreExamples.parse
                  (Examples.registry StoreExamples.columns_body)
                  string (list Field) StoreExamples.open_none
                  StoreExamples.make_reader StoreExamples.read_three_rows
                  0 StoreExamples.store "data/ticks.csv" "ticks_v1" ""
                  TranslationExamples.generic StoreExamples.columns
                  "IOError: Failed to open local file"
                  eq_refl eq_refl eq_refl)).
Defined.

(** The rate in the statistics of the store never divides by zero: in
    the first second after construction (and for a clock reading before
    it) it is 0; from then on it is the whole number of ticks per whole
    second of run time, rounded down. *)
Theorem tick_store_rate now s :
  let runtime := Z.quot (now - start_time_ s) ticks_per_second in
  ∃ rate,
    stat (TickStore.get_stats now s) "ticks_per_second"
    = Ok (JNumberInteger rate)
    ∧ stat (TickStore.get_stats now s) "runtime_seconds"
      = Ok (JNumberInteger runtime)
    ∧ (now - start_time_ s < ticks_per_second → rate = 0)
    ∧ (ticks_per_second ≤ now - start_time_ s →
       0 ≤ processed_ticks_ s →
       0 < runtime
       ∧ rate * runtime ≤ processed_ticks_ s < (rate + 1) * runtime).
Proof.
  intros runtime.
  assert (0 < ticks_per_second) as Hpos by reflexivity.
  assert (now - start_time_ s < ticks_per_second → runtime ≤ 0) as Hearly.
  { intros Hlt. subst runtime.
    destruct (Z.le_gt_cases 0 (now - start_time_ s)) as [Hge|Hneg].
    - rewrite Z.quot_small by lia. lia.
    - rewrite <- (Z.opp_involutive (now - start_time_ s)), Z.quot_opp_l by lia.
      pose proof (Z.quot_pos (- (now - start_time_ s)) ticks_per_second).
      lia. }
  assert (ticks_per_second ≤ now - start_time_ s → 0 < runtime) as Hlate.
  { intros Hge. subst runtime. rewrite Z.quot_div_nonneg by lia.
    apply Z.div_str_pos. lia. }
  unfold TickStore.get_stats. cbv zeta.
  change (Z.quot (now - start_time_ s) ticks_per_second) with runtime.
  clearbody runtime.
  exists (if runtime >? 0 then Z.quot (processed_ticks_ s) runtime else 0).
  split; [reflexivity |]. split; [reflexivity |]. split.
  - intros Hlt. specialize (Hearly Hlt).
    destruct (Z.gtb_spec runtime 0); [lia | done].
  - intros Hge Hticks. specialize (Hlate Hge). split; [done |].
    destruct (Z.gtb_spec runtime 0); [| lia].
    rewrite Z.quot_div_nonneg by lia.
    split.
    + rewrite Z.mul_comm. apply Z.mul_div_le. lia.
    + rewrite Z.mul_comm. apply Z.mul_succ_div_gt. lia.
Qed.

Lemma tick_store_rate_witness :
  (ticks_per_second
   ≤ seconds 2 - start_time_ (set_processed_ticks_ 3 StoreExamples.store)
   ∧ 0 ≤ processed_ticks_ (set_processed_ticks_ 3 StoreExamples.store))
  ∧ ∃ rate,
      stat (TickStore.get_stats (seconds 2)
              (set_processed_ticks_ 3 StoreExamples.store)) "ticks_per_second"
      = Ok (JNumberInteger rate)
      ∧ rate * 2 ≤ 3 < (rate + 1) * 2.
Proof.
  assert (ticks_per_second
          ≤ seconds 2 - start_time_ (set_processed_ticks_ 3 StoreExamples.store))
    as Hge by (by vm_compute).
  assert (0 ≤ processed_ticks_ (set_processed_ticks_ 3 StoreExamples.store))
    as Hticks by (by vm_compute).
  split; [by split |].
  destruct (tick_store_rate (seconds 2)
              (set_processed_ticks_ 3 StoreExamples.store))
    as (rate & Hrate & _ & _ & Hlate).
  exists rate. split; [exact Hrate |].
  exact (proj2 (Hlate Hge Hticks)).
Defined.

(** ** The write callback and the thread *)

Lemma substring_all (s : string) : substring 0 (String.length s) s = s.
Proof. induction s as [|a s IH]; cbn; [done | by rewrite IH]. Qed.

Lemma WriteCallback_chunk chunk userp :
  Z.of_nat (String.length chunk) < 18446744073709551616 →
  WriteCallback chunk 1 (Z.of_nat (String.length chunk)) userp
  = (userp +:+ chunk, Z.of_nat (String.length chunk)).
Proof.
  intros Hlen. unfold WriteCallback, size_t_wrap.
  rewrite Z.mul_1_l, Z.mod_small by lia.
  by rewrite Nat2Z.id, substring_all.
Qed.

(** The chunks of a transfer end up in the response one after the other,
    in the order they came and after what was there, and the callback
    tells libcurl each time that it took the whole chunk. *)
Theorem write_chunks_appends chunks response :
  Forall (λ chunk, Z.of_nat (String.length chunk) < 18446744073709551616)
    chunks →
  write_chunks chunks response
  = (response +:+ foldr String.append "" chunks,
     map (λ chunk, Z.of_nat (String.length chunk)) chunks).
Proof.
  unfold write_chunks. intros Hlen.
  assert (∀ userp written,
            foldl (λ acc chunk,
                     let '(userp, written) :=
                       WriteCallback chunk 1 (Z.of_nat (String.length chunk))
                         acc.1 in
                     (userp, acc.2 ++ [written]))
                  (userp, written) chunks
            = (userp +:+ foldr String.append "" chunks,
               written ++ map (λ chunk, Z.of_nat (String.length chunk)) chunks))
    as Hfold.
  { induction Hlen as [|chunk chunks Hchunk _ IH]; intros userp written.
    - cbn. by rewrite append_empty_r, app_nil_r.
    - cbn [foldl foldr map fst snd]. rewrite (WriteCallback_chunk _ _ Hchunk).
      rewrite IH, append_assoc, <- app_assoc. done. }
  apply Hfold.
Qed.

Lemma write_chunks_appends_witness :
  Forall (λ chunk, Z.of_nat (String.length chunk) < 18446744073709551616)
    ["{"; "}"]
  ∧ write_chunks ["{"; "}"] "" = ("{}", [1; 1]).
Proof.
  assert (Forall (λ chunk,
                    Z.of_nat (String.length chunk) < 18446744073709551616)
            ["{"; "}"]) as Hlen by (repeat constructor).
  split; [exact Hlen |].
  exact (write_chunks_appends ["{"; "}"] "" Hlen).
Defined.

(** Starting and stopping the thread, in any order and any number of
    times from the construction of the client, never assigns over a
    thread that is still joinable (there is no call of std::terminate);
    after the calls the thread exists exactly when the flag is set, and
    that is exactly when the last call was a start. A second start is a
    call without effect. *)
Theorem monitoring_lifecycle calls :
  ∃ m, run_monitoring calls not_monitoring = Some m
       ∧ update_thread_ m = running_ m
       ∧ running_ m = match last calls with
                      | Some call_start_monitoring => true
                      | _ => false
                      end
       ∧ run_monitoring (calls ++ [call_start_monitoring; call_start_monitoring])
           not_monitoring
         = run_monitoring (calls ++ [call_start_monitoring]) not_monitoring.
Proof.
  unfold run_monitoring.
  induction calls as [|call calls IH] using rev_ind.
  - exists not_monitoring. by repeat split.
  - destruct IH as (m & Hm & Hthread & Hflag & _).
    rewrite !foldl_app, Hm, last_snoc. cbn [foldl].
    destruct m as [running thread]. cbn in Hthread. subst thread.
    destruct call, running; cbn; eauto 10.
Qed.

(** ** Counting the lookups *)

Lemma lookups_nonneg calls : 0 ≤ lookups calls.
Proof.
  induction calls as [|[json_parse curl now schema_id version|now] calls IH];
    cbn [lookups]; lia.
Qed.

(** A lookup counts once: as a hit or as a miss. *)
Lemma fetch_schema_counts_once json_parse curl now c schema_id version :
  let out := fetch_schema json_parse curl now c schema_id version in
  (cache_hits_ (client out) = atomic_incr (cache_hits_ c)
   ∧ cache_misses_ (client out) = cache_misses_ c)
  ∨ (cache_hits_ (client out) = cache_hits_ c
     ∧ cache_misses_ (client out) = atomic_incr (cache_misses_ c)).
Proof.
  unfold fetch_schema. cbv zeta.
  assert (∀ c', cache_hits_ c' = cache_hits_ c →
                cache_misses_ c' = cache_misses_ c →
                cache_hits_ (client (fetch_from_registry json_parse curl now c'
                                       schema_id version)) = cache_hits_ c
                ∧ cache_misses_ (client (fetch_from_registry json_parse curl now
                                           c' schema_id version))
                  = atomic_incr (cache_misses_ c)) as Hregistry.
  { intros c' Hh Hm.
    destruct (fetch_from_registry_counters json_parse curl now c' schema_id
                version) as (-> & -> & _). by rewrite Hh, Hm. }
  destruct (schema_cache_ c !! cache_key schema_id version);
    [| right; by apply Hregistry].
  destruct (timestamps_at _ _) as [cache_time timestamps].
  case_match; [by left | right; by apply Hregistry].
Qed.

(** Every lookup a client has served is in its statistics exactly once:
    while fewer than 2^31 lookups were made, the hits and the misses add
    up to the number of lookups, whatever the sweeps in between. *)
Theorem lookups_are_counted base_url auth_token calls :
  lookups calls < 2147483648 →
  let c := run_calls calls (new_client base_url auth_token) in
  0 ≤ cache_hits_ c
  ∧ 0 ≤ cache_misses_ c
  ∧ cache_hits_ c + cache_misses_ c = lookups calls.
Proof.
  unfold run_calls.
  assert (∀ c, 0 ≤ cache_hits_ c → 0 ≤ cache_misses_ c →
               cache_hits_ c + cache_misses_ c + lookups calls < 2147483648 →
               0 ≤ cache_hits_ (foldl run_call c calls)
               ∧ 0 ≤ cache_misses_ (foldl run_call c calls)
               ∧ cache_hits_ (foldl run_call c calls)
                 + cache_misses_ (foldl run_call c calls)
                 = cache_hits_ c + cache_misses_ c + lookups calls) as Hrun.
  { induction calls as [|call calls IH]; intros c Hh Hm Hbound.
    - cbn in *. lia.
    - cbn [foldl]. pose proof (lookups_nonneg calls) as Hn.
      destruct call as [json_parse curl now schema_id version|now];
        cbn [lookups run_call] in *.
      + destruct (fetch_schema_counts_once json_parse curl now c schema_id
                    version) as [[Hh' Hm']|[Hh' Hm']];
          rewrite atomic_incr_succ in * by lia;
          destruct (IH (client (fetch_schema json_parse curl now c schema_id
                                  version))) as (? & ? & ?); lia.
      + destruct (sweep_expired_counters now c) as (Hh' & Hm' & _).
        destruct (IH (sweep_expired now c)) as (? & ? & ?); lia. }
  intros Hbound. apply (Hrun (new_client base_url auth_token)); cbn; lia.
Qed.

Lemma lookups_are_counted_witness :
  lookups [call_fetch_schema Examples.parse
             (Examples.registry Examples.ticks_body) 0 "ticks_v1" "";
           call_sweep (seconds 30);
           call_fetch_schema Examples.parse
             (Examples.registry Examples.ticks_body) (seconds 31) "ticks_v1" ""]
  < 2147483648
  ∧ cache_hits_ (run_calls
                   [call_fetch_schema Examples.parse
                      (Examples.registry Examples.ticks_body) 0 "ticks_v1" "";
                    call_sweep (seconds 30);
                    call_fetch_schema Examples.parse
                      (Examples.registry Examples.ticks_body) (seconds 31)
                      "ticks_v1" ""]
                   Examples.fresh_client)
    + cache_misses_ (run_calls
                       [call_fetch_schema Examples.parse
                          (Examples.registry Examples.ticks_body) 0 "ticks_v1" "";
                        call_sweep (seconds 30);
                        call_fetch_schema Examples.parse
                          (Examples.registry Examples.ticks_body) (seconds 31)
                          "ticks_v1" ""]
                       Examples.fresh_client)
    = 2.
Proof.
  assert (lookups [call_fetch_schema Examples.parse
                     (Examples.registry Examples.ticks_body) 0 "ticks_v1" "";
                   call_sweep (seconds 30);
                   call_fetch_schema Examples.parse
                     (Examples.registry Examples.ticks_body) (seconds 31)
                     "ticks_v1" ""]
          < 2147483648) as Hbound by reflexivity.
  split; [exact Hbound |].
  exact (proj2 (proj2 (lookups_are_counted "http://localhost:8000" "" _ Hbound))).
Defined.

(** ** What a lookup never does *)

Section FetchSchemaNever.

Variable json_parse : string → result json.
Variable curl : libcurl.

Lemma fetch_from_registry_transfers_le now c schema_id version :
  let out := fetch_from_registry json_parse curl now c schema_id version in
  (transfers out = [] ∧ ∃ e, returned out = Throw e)
  ∨ transfers out = [registry_request c schema_id version].
Proof.
  unfold fetch_from_registry. cbv zeta.
  destruct (curl_easy_init curl); cbn [negb]; [| left; eauto].
  right. repeat (case_match; cbn; try done).
Qed.

(** A call asks the registry at most once (there is no retry), and what
    it asks is the request built from the client's URL and token, the
    identifier and the version, with the timeout of 30 seconds. *)
Theorem fetch_schema_at_most_one_transfer now c schema_id version :
  let out := fetch_schema json_parse curl now c schema_id version in
  (length (transfers out) ≤ 1)%nat
  ∧ ∀ request, request ∈ transfers out →
               request = registry_request c schema_id version
               ∧ CURLOPT_TIMEOUT request = 30.
Proof.
  unfold fetch_schema. cbv zeta.
  assert (∀ c', registry_request c' schema_id version
                = registry_request c schema_id version →
            let out := fetch_from_registry json_parse curl now c' schema_id
                         version in
            (length (transfers out) ≤ 1)%nat
            ∧ ∀ request, request ∈ transfers out →
                         request = registry_request c schema_id version
                         ∧ CURLOPT_TIMEOUT request = 30) as Hregistry.
  { intros c' Hreq out.
    destruct (fetch_from_registry_transfers_le now c' schema_id version)
      as [[Hnone _]|Hone]; fold out in Hnone || fold out in Hone.
    - rewrite Hnone. split; [cbn; lia | by intros request Hin%elem_of_nil].
    - rewrite Hone, Hreq. split; [cbn; lia |].
      by intros request ->%list_elem_of_singleton. }
  destruct (schema_cache_ c !! cache_key schema_id version);
    [| by apply Hregistry].
  destruct (timestamps_at _ _) as [cache_time timestamps].
  case_match.
  - cbn. split; [lia | by intros request Hin%elem_of_nil].
  - by apply (Hregistry (set_cache_timestamps_ timestamps c)).
Qed.

(** No stale document is ever returned: a document a call returns either
    was in the cache with an age below the TTL (and no transfer was
    made), or was fetched by this very call and is now in the cache with
    the time stamp of the call. *)
Theorem fetch_schema_never_stale now c schema_id version document :
  stamped c →
  let out := fetch_schema json_parse curl now c schema_id version in
  let key := cache_key schema_id version in
  returned out = Ok document →
  (∃ fetched_at,
      schema_cache_ c !! key = Some document
      ∧ cache_timestamps_ c !! key = Some fetched_at
      ∧ now - fetched_at < cache_ttl_
      ∧ transfers out = [])
  ∨ (transfers out = [registry_request c schema_id version]
     ∧ schema_cache_ (client out) !! key = Some document
     ∧ cache_timestamps_ (client out) !! key = Some now).
Proof.
  intros Hst out key Hret. subst out key.
  destruct (fetch_schema_cases json_parse curl now c schema_id version Hst)
    as [(d & t & Hd & Ht & Hage & Hhit)|[_ Heq]].
  - left. rewrite Hhit in *. injection Hret as ->. by exists t.
  - right. rewrite Heq in *.
    destruct (fetch_from_registry_Ok json_parse curl now c schema_id version
                document Hret) as [-> ->].
    rewrite !lookup_insert_eq.
    destruct (fetch_from_registry_transfers_le now c schema_id version)
      as [[_ [e He]]|Hone]; [congruence | done].
Qed.

End FetchSchemaNever.

Lemma fetch_schema_never_stale_witness :
  (stamped Examples.warm_client
   ∧ returned (fetch_schema Examples.parse
                 (Examples.registry Examples.ticks_body) (seconds 600)
                 Examples.warm_client "ticks_v1" "")
     = Ok Examples.ticks_document)
  ∧ ((∃ fetched_at,
         schema_cache_ Examples.warm_client !! cache_key "ticks_v1" ""
         = Some Examples.ticks_document
         ∧ cache_timestamps_ Examples.warm_client !! cache_key "ticks_v1" ""
           = Some fetched_at
         ∧ seconds 600 - fetched_at < cache_ttl_
         ∧ transfers (fetch_schema Examples.parse
                        (Examples.registry Examples.ticks_body) (seconds 600)
                        Examples.warm_client "ticks_v1" "") = [])
     ∨ (transfers (fetch_schema Examples.parse
                     (Examples.registry Examples.ticks_body) (seconds 600)
                     Examples.warm_client "ticks_v1" "")
        = [registry_request Examples.warm_client "ticks_v1" ""]
        ∧ schema_cache_ (client (fetch_schema Examples.parse
                                   (Examples.registry Examples.ticks_body)
                                   (seconds 600) Examples.warm_client
                                   "ticks_v1" "")) !! cache_key "ticks_v1" ""
          = Some Examples.ticks_document
        ∧ cache_timestamps_ (client (fetch_schema Examples.parse
                                       (Examples.registry Examples.ticks_body)
                                       (seconds 600) Examples.warm_client
                                       "ticks_v1" "")) !! cache_key "ticks_v1" ""
          = Some (seconds 600))).
Proof.
  assert (stamped Examples.warm_client) as Hst.
  { apply fetch_schema_stamped, new_client_stamped. }
  split; [by split |].
  exact (fetch_schema_never_stale Examples.parse
           (Examples.registry Examples.ticks_body) (seconds 600)
           Examples.warm_client "ticks_v1" "" Examples.ticks_document
           Hst eq_refl).
Defined.

Lemma fetch_schema_at_most_one_transfer_witness :
  registry_request Examples.fresh_client "ticks_v1" ""
  ∈ transfers (fetch_schema Examples.parse
                 (Examples.registry Examples.ticks_body) 0
                 Examples.fresh_client "ticks_v1" "")
  ∧ CURLOPT_TIMEOUT (registry_request Examples.fresh_client "ticks_v1" "") = 30.
Proof.
  assert (registry_request Examples.fresh_client "ticks_v1" ""
          ∈ transfers (fetch_schema Examples.parse
                         (Examples.registry Examples.ticks_body) 0
                         Examples.fresh_client "ticks_v1" "")) as Hin.
  { by apply list_elem_of_singleton. }
  split; [exact Hin |].
  exact (proj2 (proj2 (fetch_schema_at_most_one_transfer Examples.parse
                         (Examples.registry Examples.ticks_body) 0
                         Examples.fresh_client "ticks_v1" "") _ Hin)).
Defined.
